(** * The retrieval engine of Quiz_Generation: chunker, TF-IDF store, service

    A shallow embedding of [src/rag_system.py] ([TextChunker],
    [SimpleVectorStore], [RAGSystem]) and the properties of it that the
    specification states.

    Conventions of the model.
    - A Python [str] is a [string] whose characters are the code points
      below 256 (Basic Latin and Latin-1 Supplement); [len] is
      [String.length].
    - A Python [int] that the caller chooses ([chunk_size], [chunk_overlap],
      [top_k]) is a [Z]; counters that only grow from 0 are [nat].
    - Python numbers that take part in scoring ([count / total],
      [math.log], the accumulated [score]) are idealised as real numbers:
      the rounding of each floating-point operation is left out. Two
      chunks whose exact scores are equal and not 0 can get scores one
      rounding apart in Python, so the model does not tell which of them
      Python ranks first; the properties below speak of the value of a
      score, of the order among the scores that are returned, and of
      scores that are 0, which Python computes exactly.
    - A Python [dict] is a [gmap]; a [set] of strings is a [gset string].
    - A method that can raise returns a [result]; the object it mutates is
      passed in and returned. *)

From Stdlib Require Import Ascii String ZArith Reals Lra.
From stdpp Require Import base gmap sets list strings fin_maps sorting.

Local Open Scope string_scope.

(** ** Characters and strings *)

Module Char.

Definition code (c : ascii) : N := N_of_ascii c.

Definition between (lo hi : N) (c : ascii) : bool :=
  ((lo <=? code c) && (code c <=? hi))%N.

(** [str.isspace] on one character, which is also the regular
    expression class [\s] for [str] patterns: TAB..CR, FS..US, SPACE,
    NEL (U+0085) and NBSP (U+00A0). *)
Definition isspace (c : ascii) : bool :=
  between 9 13 c || between 28 32 c || (code c =? 133)%N || (code c =? 160)%N.

(** The regular expression class [\w] for [str] patterns: the
    characters with [str.isalnum], and the underscore. Below 256 the
    alphanumerics are the ASCII letters and digits, the ordinal
    indicators (U+00AA, U+00BA), the micro sign (U+00B5), the
    superscript digits (U+00B2, U+00B3, U+00B9), the vulgar fractions
    (U+00BC..U+00BE) and the letters U+00C0..U+00FF except the
    multiplication and division signs (U+00D7, U+00F7). *)
Definition isword (c : ascii) : bool :=
  between 48 57 c || between 65 90 c || between 97 122 c || (code c =? 95)%N
  || (code c =? 170)%N || (code c =? 186)%N || (code c =? 181)%N
  || between 178 179 c || (code c =? 185)%N || between 188 190 c
  || between 192 214 c || between 216 246 c || between 248 255 c.

(** [str.lower] on one character: ASCII capitals and the Latin-1
    capitals U+00C0..U+00DE (the multiplication sign apart) move up by
    32; every other character below 256 is its own lower case. *)
Definition lower (c : ascii) : ascii :=
  if between 65 90 c || between 192 214 c || between 216 222 c
  then ascii_of_N (code c + 32)
  else c.

(** The lookbehind class [[.!?]]. *)
Definition is_terminal (c : ascii) : bool :=
  (code c =? 46)%N || (code c =? 33)%N || (code c =? 63)%N.

(** The character class of [_tokenize]: [a-z], [A-Z], U+00E0..U+00FF,
    U+00C0..U+0178 and [0-9]; no character of the model is above 255. *)
Definition in_token_class (c : ascii) : bool :=
  between 97 122 c || between 65 90 c || between 224 255 c
  || between 192 376 c || between 48 57 c.

End Char.

Module Str.

Definition chars (s : string) : list ascii := list_ascii_of_string s.
Definition of_chars (l : list ascii) : string := string_of_list_ascii l.

(** [len(s)] *)
Definition len (s : string) : Z := Z.of_nat (String.length s).

(** [s.lower()] *)
Definition lower (s : string) : string := of_chars (map Char.lower (chars s)).

Fixpoint lstrip_chars (l : list ascii) : list ascii :=
  match l with
  | c :: l' => if Char.isspace c then lstrip_chars l' else l
  | [] => []
  end.

(** [s.strip()] *)
Definition strip (s : string) : string :=
  of_chars (rev (lstrip_chars (rev (lstrip_chars (chars s))))).

(** [sep.join(parts)] *)
Fixpoint join (sep : string) (parts : list string) : string :=
  match parts with
  | [] => ""
  | [p] => p
  | p :: ps => p ++ sep ++ join sep ps
  end.

(** [s[:n]] for a literal [n >= 0] *)
Fixpoint prefix (n : nat) (s : string) : string :=
  match n, s with
  | S n', String c s' => String c (prefix n' s')
  | _, _ => ""
  end.

End Str.

(** [l[:k]] for a Python integer [k]: the first [k] elements when
    [k >= 0], all but the last [-k] when [k < 0]. *)
Definition slice_to {A} (k : Z) (l : list A) : list A :=
  if (0 <=? k)%Z then take (Z.to_nat k) l
  else take (length l - Z.to_nat (- k)) l.

(** ** Regular expressions of the source *)

Module Re.

(** [re.split(r'(?<=[.!?])\s+', text)]: a separator is a maximal run of
    white space that directly follows one of [. ! ?]. [cur] holds the
    piece being read, reversed; [after_terminal] tells whether the
    previous character is one of [. ! ?]; [in_sep] tells whether a
    separator is being skipped. A separator that ends the text leaves
    an empty last piece, as [re.split] does. *)
Fixpoint split_scan (in_sep after_terminal : bool) (cur : list ascii)
    (l : list ascii) : list string :=
  match l with
  | [] => [Str.of_chars (rev cur)]
  | c :: l' =>
      if in_sep then
        if Char.isspace c then split_scan true false cur l'
        else split_scan false (Char.is_terminal c) [c] l'
      else if Char.isspace c && after_terminal then
        Str.of_chars (rev cur) :: split_scan true false [] l'
      else split_scan false (Char.is_terminal c) (c :: cur) l'
  end.

Definition split_sentences (text : string) : list string :=
  split_scan false false [] (Str.chars text).

(** The longest run [p] of class characters at the head of [l] after
    which [\b] holds; [prev_word] tells whether the character before
    [l] is a word character. [None] when no run, not even the empty
    one, ends at a word boundary. *)
Fixpoint class_run (prev_word : bool) (l : list ascii) : option (list ascii) :=
  match l with
  | [] => if prev_word then Some [] else None
  | c :: l' =>
      let here := if xorb prev_word (Char.isword c) then Some [] else None in
      if Char.in_token_class c then
        match class_run (Char.isword c) l' with
        | Some p => Some (c :: p)
        | None => here
        end
      else here
  end.

(** [re.findall(r'\b[...]+\b', text)]: scanning from the left, a match
    starts at a word boundary on a class character and is the longest
    run of class characters that ends at a word boundary; the scan
    resumes after the match. [skip] counts the characters of the
    current match still to pass. *)
Fixpoint findall_scan (skip : nat) (prev_word : bool) (l : list ascii)
    : list string :=
  match l with
  | [] => []
  | c :: l' =>
      match skip with
      | S k => findall_scan k (Char.isword c) l'
      | O =>
          if Char.in_token_class c && xorb prev_word (Char.isword c) then
            match class_run (Char.isword c) l' with
            | Some p =>
                Str.of_chars (c :: p)
                :: findall_scan (length p) (Char.isword c) l'
            | None => findall_scan 0 (Char.isword c) l'
            end
          else findall_scan 0 (Char.isword c) l'
      end
  end.

Definition findall_words (text : string) : list string :=
  findall_scan 0 false (Str.chars text).

End Re.

(** ** Values, dictionaries and exceptions *)

(** What a chunk dictionary holds under its keys. *)
Inductive pyval : Type :=
  | PNone
  | PInt (z : Z)
  | PStr (s : string)
  | PNum (r : R)
  | PList (l : list string)
  | PDict (d : gmap string R).

(** A chunk is a Python [dict] with string keys. *)
Abbreviation chunk := (gmap string pyval).

Inductive exn : Type :=
  | KeyError (key : string)
  | IndexError
  | TypeError
  | AttributeError.

Inductive result (A : Type) : Type :=
  | Ok (a : A)
  | Raise (e : exn).
Arguments Ok {A} a.
Arguments Raise {A} e.

Global Instance result_ret : MRet result := fun _ a => Ok a.
Global Instance result_bind : MBind result := fun _ _ f m =>
  match m with
  | Ok a => f a
  | Raise e => Raise e
  end.

Definition raises {A} (m : result A) : Prop := exists e, m = Raise e.

(** A loop whose body can raise. *)
Fixpoint foldM {A B} (f : B -> A -> result B) (b : B) (l : list A) : result B :=
  match l with
  | [] => Ok b
  | a :: l' => b' ← f b a; foldM f b' l'
  end.

(** [d[key]] *)
Definition getitem (d : chunk) (key : string) : result pyval :=
  match d !! key with
  | Some v => Ok v
  | None => Raise (KeyError key)
  end.

Definition as_str (v : pyval) : result string :=
  match v with PStr s => Ok s | _ => Raise AttributeError end.

Definition as_dict (v : pyval) : result (gmap string R) :=
  match v with PDict d => Ok d | _ => Raise TypeError end.

(** ** TextChunker *)

Record TextChunker : Type := {
  chunk_size : Z;
  chunk_overlap : Z
}.

(** [TextChunker.__init__]: the two settings are stored as given. *)
Definition TextChunker_init (chunk_size chunk_overlap : Z) : result TextChunker :=
  Ok {| chunk_size := chunk_size; chunk_overlap := chunk_overlap |}.

(** [TextChunker._split_into_sentences] *)
Definition _split_into_sentences (text : string) : list string :=
  let sentences := Re.split_sentences text in
  map Str.strip (filter (fun s => Str.strip s <> "") sentences).

(** The loop of [_get_overlap_sentences] over [reversed(sentences)];
    [break] ends it. *)
Fixpoint overlap_loop (self : TextChunker) (overlap_chars : Z)
    (overlap_sentences : list string) (reversed : list string) : list string :=
  match reversed with
  | [] => overlap_sentences
  | sentence :: rest =>
      if (overlap_chars + Str.len sentence <=? chunk_overlap self)%Z then
        overlap_loop self (overlap_chars + Str.len sentence)
          (sentence :: overlap_sentences) rest
      else overlap_sentences
  end.

(** [TextChunker._get_overlap_sentences] *)
Definition _get_overlap_sentences (self : TextChunker) (sentences : list string)
    : list string :=
  match sentences with
  | [] => []
  | _ => overlap_loop self 0 [] (rev sentences)
  end.

(** The dictionary that [chunk_text] appends for the sentences
    [current_chunk] when [n] chunks are already closed. *)
Definition new_chunk (current_chunk : list string) (n : nat) : chunk :=
  let chunk_text := Str.join " " current_chunk in
  <["text" := PStr chunk_text]>
    (<["char_count" := PInt (Str.len chunk_text)]>
      (<["chunk_id" := PInt (Z.of_nat n)]> ∅)).

(** [sum(len(s) for s in l)] *)
Definition sum_len (l : list string) : Z :=
  foldr (fun s acc => (Str.len s + acc)%Z) 0%Z l.

(** The local variables of [chunk_text]. *)
Record chunking : Type := {
  chunks : list chunk;
  current_chunk : list string;
  current_length : Z
}.

(** [if current_chunk: chunks.append({...})] *)
Definition flush (st : chunking) : list chunk :=
  match current_chunk st with
  | [] => chunks st
  | _ => (chunks st ++ [new_chunk (current_chunk st) (length (chunks st))])%list
  end.

(** One turn of the loop [for sentence in sentences]. *)
Definition chunk_step (self : TextChunker) (st : chunking) (sentence : string)
    : chunking :=
  let sentence_length := Str.len sentence in
  if (current_length st + sentence_length <=? chunk_size self)%Z then
    {| chunks := chunks st;
       current_chunk := (current_chunk st ++ [sentence])%list;
       current_length := (current_length st + sentence_length + 1)%Z |}
  else
    let overlap_sentences := _get_overlap_sentences self (current_chunk st) in
    let next := (overlap_sentences ++ [sentence])%list in
    {| chunks := flush st;
       current_chunk := next;
       current_length := (sum_len next + Z.of_nat (length next))%Z |}.

(** [TextChunker.chunk_text] *)
Definition chunk_text (self : TextChunker) (text : string) : list chunk :=
  if decide (text = "" \/ Str.strip text = "") then []
  else
    let text := Str.strip text in
    let sentences := _split_into_sentences text in
    flush (foldl (chunk_step self)
             {| chunks := []; current_chunk := []; current_length := 0 |}
             sentences).

(** ** SimpleVectorStore *)

Record SimpleVectorStore : Type := {
  documents : list chunk;
  doc_freqs : gmap string nat;
  total_docs : nat
}.

(** [SimpleVectorStore.__init__] *)
Definition SimpleVectorStore_init : SimpleVectorStore :=
  {| documents := []; doc_freqs := ∅; total_docs := 0 |}.

(** [SimpleVectorStore._tokenize] *)
Definition _tokenize (text : string) : list string :=
  let text := Str.lower text in
  let words := Re.findall_words text in
  filter (fun w => 2 < String.length w) words.

(** [counter[term]] and [counter.get(term, 0)] *)
Definition count_of (counter : gmap string nat) (term : string) : nat :=
  default 0 (counter !! term).

(** [counter[term] += 1] *)
Definition incr (term : string) (counter : gmap string nat) : gmap string nat :=
  <[term := S (count_of counter term)]> counter.

(** [Counter(tokens)] *)
Definition Counter (tokens : list string) : gmap string nat :=
  foldl (fun tf term => incr term tf) ∅ tokens.

(** [SimpleVectorStore._compute_tf] *)
Definition _compute_tf (tokens : list string) : gmap string R :=
  let tf := Counter tokens in
  let total := length tokens in
  if decide (total = 0) then ∅
  else (fun count => (INR count / INR total)%R) <$> tf.

(** [SimpleVectorStore._compute_idf] *)
Definition _compute_idf (self : SimpleVectorStore) (term : string) : R :=
  if decide (total_docs self = 0) then 0%R
  else
    let df := count_of (doc_freqs self) term in
    if decide (df = 0) then 0%R
    else ln (INR (total_docs self) / INR df).

Definition id_value (document_id : option string) : pyval :=
  match document_id with
  | Some s => PStr s
  | None => PNone
  end.

(** The body of the loop of [add_documents] for one chunk. *)
Definition add_chunk (document_id : option string) (self : SimpleVectorStore)
    (chunk : chunk) : result SimpleVectorStore :=
  let chunk := <["document_id" := id_value document_id]> chunk in
  text ← getitem chunk "text" ≫= as_str;
  let tokens := _tokenize text in
  let chunk := <["tokens" := PList tokens]> chunk in
  let chunk := <["tf" := PDict (_compute_tf tokens)]> chunk in
  let unique_terms : gset string := list_to_set tokens in
  Ok {| documents := (documents self ++ [chunk])%list;
        doc_freqs := set_fold incr (doc_freqs self) unique_terms;
        total_docs := S (total_docs self) |}.

(** [SimpleVectorStore.add_documents] *)
Definition add_documents (self : SimpleVectorStore) (chunks : list chunk)
    (document_id : option string) : result SimpleVectorStore :=
  foldM (add_chunk document_id) self chunks.

Global Instance Rlt_rel_dec : RelDecision Rlt := Rlt_dec.

(** The inner loop of [search]: the score of one stored chunk, in exact
    arithmetic. *)
Definition score_document (self : SimpleVectorStore) (query_tokens : list string)
    (doc : chunk) : result R :=
  foldM (fun score term =>
           doc_tf ← getitem doc "tf" ≫= as_dict;
           match doc_tf !! term with
           | Some tf =>
               let idf := _compute_idf self term in
               Ok (score + tf * idf)%R
           | None => Ok score
           end)
        0%R query_tokens.

(** The outer loop of [search] over [enumerate(self.documents)], from
    position [i] on. *)
Fixpoint score_documents (self : SimpleVectorStore) (query_tokens : list string)
    (i : nat) (docs : list chunk) : result (list (R * nat)) :=
  match docs with
  | [] => Ok []
  | doc :: rest =>
      score ← score_document self query_tokens doc;
      scores ← score_documents self query_tokens (S i) rest;
      Ok ((score, i) :: scores)
  end.

(** [scores.sort(reverse=True, key=lambda x: x[0])]. Python's sort is
    stable, also with [reverse=True]: entries with equal keys keep their
    order. The result of a stable sort is fixed by the keys, so it is
    computed here by insertion: an entry goes behind the entries that are
    strictly greater, and before the first one that is not. *)
Fixpoint insert_desc (x : R * nat) (l : list (R * nat)) : list (R * nat) :=
  match l with
  | [] => [x]
  | y :: l' => if decide (x.1 < y.1)%R then y :: insert_desc x l' else x :: l
  end.

Definition sort_desc (l : list (R * nat)) : list (R * nat) :=
  foldr insert_desc [] l.

(** The body of the last loop of [search]: the copy of the chunk at
    [idx] that is returned. *)
Definition result_of (self : SimpleVectorStore) (entry : R * nat) : result chunk :=
  let '(score, idx) := entry in
  match documents self !! idx with
  | None => Raise IndexError
  | Some stored =>
      let doc := stored in
      let doc := <["score" := PNum score]> doc in
      let doc := delete "tokens" doc in
      let doc := delete "tf" doc in
      Ok doc
  end.

Fixpoint mapM {A B} (f : A -> result B) (l : list A) : result (list B) :=
  match l with
  | [] => Ok []
  | a :: l' => b ← f a; bs ← mapM f l'; Ok (b :: bs)
  end.

(** [scores[:top_k]] of [search], after the sort. *)
Definition ranking (self : SimpleVectorStore) (query_tokens : list string)
    (top_k : Z) : result (list (R * nat)) :=
  scores ← score_documents self query_tokens 0 (documents self);
  Ok (slice_to top_k (sort_desc scores)).

(** [SimpleVectorStore.search]. The store is not changed. In the branch
    for a query without tokens the stored dictionaries themselves are
    returned. *)
Definition search (self : SimpleVectorStore) (query : string) (top_k : Z)
    : result (list chunk) :=
  match documents self with
  | [] => Ok []
  | _ =>
      let query_tokens := _tokenize query in
      match query_tokens with
      | [] => Ok (slice_to top_k (documents self))
      | _ =>
          top ← ranking self query_tokens top_k;
          mapM (result_of self) top
      end
  end.

(** [SimpleVectorStore.get_all_text] *)
Definition get_all_text (self : SimpleVectorStore) : result string :=
  texts ← mapM (fun doc => getitem doc "text" ≫= as_str) (documents self);
  Ok (Str.join (String "010" (String "010" "")) texts).

(** [SimpleVectorStore.clear] *)
Definition clear_store (self : SimpleVectorStore) : SimpleVectorStore :=
  {| documents := []; doc_freqs := ∅; total_docs := 0 |}.

(** ** RAGSystem *)

Record RAGSystem : Type := {
  chunker : TextChunker;
  vector_store : SimpleVectorStore;
  document_hashes : gset string
}.

(** The dictionary that [get_stats] returns. *)
Record stats : Type := {
  total_chunks : nat;
  unique_documents : nat
}.

(** [RAGSystem.__init__] *)
Definition RAGSystem_init (chunk_size chunk_overlap : Z) : result RAGSystem :=
  chunker ← TextChunker_init chunk_size chunk_overlap;
  Ok {| chunker := chunker;
        vector_store := SimpleVectorStore_init;
        document_hashes := ∅ |}.

(** [RAGSystem.get_full_context] *)
Definition get_full_context (self : RAGSystem) : result string :=
  get_all_text (vector_store self).

(** [RAGSystem.get_relevant_context] *)
Definition get_relevant_context (self : RAGSystem) (query : string) (top_k : Z)
    : result string :=
  results ← search (vector_store self) query top_k;
  match results with
  | [] =>
      all_text ← get_all_text (vector_store self);
      Ok (Str.prefix 3000 all_text)
  | _ =>
      context_parts ← mapM (fun r => getitem r "text" ≫= as_str) results;
      Ok (Str.join (String "010" (String "010" ("---" ++ String "010" (String "010" ""))))
            context_parts)
  end.

(** [RAGSystem.clear] *)
Definition clear (self : RAGSystem) : RAGSystem :=
  {| chunker := chunker self;
     vector_store := clear_store (vector_store self);
     document_hashes := ∅ |}.

(** [RAGSystem.get_stats] *)
Definition get_stats (self : RAGSystem) : stats :=
  {| total_chunks := length (documents (vector_store self));
     unique_documents := size (document_hashes self) |}.

Section Service.

(** [hashlib.md5(text.encode()).hexdigest()], a function of the text.
    [text.encode()] is the UTF-8 encoder; it raises [UnicodeEncodeError]
    at a surrogate (U+D800..U+DFFF) and nowhere else, so it encodes every
    string of the model, whose characters are below 256, and the digest
    is total on them. *)
Variable md5_hexdigest : string -> string.

(** [RAGSystem.add_document]: the number returned, and the service
    after the call. *)
Definition add_document (self : RAGSystem) (text : string)
    (document_id : option string) : result (Z * RAGSystem) :=
  let text_hash := md5_hexdigest text in
  if decide (text_hash ∈ document_hashes self) then Ok (0%Z, self)
  else
    let hashes := {[ text_hash ]} ∪ document_hashes self in
    let chunks := chunk_text (chunker self) text in
    store ← add_documents (vector_store self) chunks document_id;
    Ok (Z.of_nat (length chunks),
        {| chunker := chunker self;
           vector_store := store;
           document_hashes := hashes |}).

(** The calls a client of the service makes; [app.py] calls [search]
    on the store of the service directly. *)
Inductive call : Type :=
  | AddDocument (text : string) (document_id : option string)
  | Search (query : string) (top_k : Z)
  | GetRelevantContext (query : string) (top_k : Z)
  | GetFullContext
  | Clear
  | GetStats.

Inductive reply : Type :=
  | RInt (n : Z)
  | RChunks (l : list chunk)
  | RStr (s : string)
  | RNone
  | RStats (s : stats).

Definition perform (self : RAGSystem) (c : call) : result (reply * RAGSystem) :=
  match c with
  | AddDocument text document_id =>
      '(n, self') ← add_document self text document_id; Ok (RInt n, self')
  | Search query top_k =>
      r ← search (vector_store self) query top_k; Ok (RChunks r, self)
  | GetRelevantContext query top_k =>
      r ← get_relevant_context self query top_k; Ok (RStr r, self)
  | GetFullContext =>
      r ← get_full_context self; Ok (RStr r, self)
  | Clear => Ok (RNone, clear self)
  | GetStats => Ok (RStats (get_stats self), self)
  end.

(** The services a client can have in hand: a fresh one, or one on
    which a call has returned. *)
Inductive reachable : RAGSystem -> Prop :=
  | reachable_init chunk_size chunk_overlap self :
      RAGSystem_init chunk_size chunk_overlap = Ok self ->
      reachable self
  | reachable_call self c r self' :
      reachable self ->
      perform self c = Ok (r, self') ->
      reachable self'.

End Service.

(** ** Notions used to state the properties *)

(** *** The sentences of each chunk

    [chunk_text] keeps only the joined text of a chunk it closes. To
    speak of the sentences carried over from one chunk to the next, the
    loop is run a second time with the list of the closed chunks'
    sentences beside its variables; [chunk_text_groups] below shows that
    the two runs close the same chunks. *)

Definition initial_chunking : chunking :=
  {| chunks := []; current_chunk := []; current_length := 0 |}.

Definition flush_groups (groups : list (list string)) (st : chunking)
    : list (list string) :=
  match current_chunk st with
  | [] => groups
  | g => (groups ++ [g])%list
  end.

Definition group_step (self : TextChunker)
    (acc : list (list string) * chunking) (sentence : string)
    : list (list string) * chunking :=
  let st := acc.2 in
  (if (current_length st + Str.len sentence <=? chunk_size self)%Z
   then acc.1 else flush_groups acc.1 st,
   chunk_step self st sentence).

Definition sentence_groups (self : TextChunker) (text : string)
    : list (list string) :=
  if decide (text = "" \/ Str.strip text = "") then []
  else
    let acc := foldl (group_step self) ([], initial_chunking)
                 (_split_into_sentences (Str.strip text)) in
    flush_groups acc.1 acc.2.

(** The sentences of a text, as [chunk_text] sees them. *)
Definition sentences_of (text : string) : list string :=
  _split_into_sentences (Str.strip text).

(** [g'] starts with the sentences carried over from [g], and goes on. *)
Definition carries (self : TextChunker) (g g' : list string) : Prop :=
  exists rest, rest <> [] /\ g' = (_get_overlap_sentences self g ++ rest)%list.

(** What the loop of [chunk_text] maintains: neighbours among the closed
    chunks carry over, the open chunk carries over from the last closed
    one, and the closed dictionaries are those of the closed sentences. *)
Record chunking_inv (self : TextChunker) (groups : list (list string))
    (st : chunking) : Prop := {
  inv_neighbours : forall i g g',
    groups !! i = Some g -> groups !! S i = Some g' -> carries self g g';
  inv_open : forall g, last groups = Some g -> carries self g (current_chunk st);
  inv_chunks : chunks st = imap (fun i g => new_chunk g i) groups
}.

(** *** Term statistics *)

(** The token list the store has attached to a stored chunk. *)
Definition chunk_tokens (doc : chunk) : list string :=
  match doc !! "tokens" with
  | Some (PList tokens) => tokens
  | _ => []
  end.

(** How often [term] occurs in [tokens]. *)
Definition occurrences (term : string) (tokens : list string) : nat :=
  length (filter (fun t => t = term) tokens).

(** The number of chunks of [docs] whose tokens contain [term]. *)
Definition containing (term : string) (docs : list chunk) : nat :=
  length (filter (fun doc => term ∈ chunk_tokens doc) docs).

(** TF of the specification: the fraction of the chunk's tokens equal
    to the term. *)
Definition TF (doc : chunk) (term : string) : R :=
  (INR (occurrences term (chunk_tokens doc)) / INR (length (chunk_tokens doc)))%R.

(** IDF of the specification. *)
Definition IDF (self : SimpleVectorStore) (term : string) : R :=
  let df := count_of (doc_freqs self) term in
  if decide (0 < df) then ln (INR (total_docs self) / INR df) else 0%R.

Definition sum_R (l : list R) : R := foldr Rplus 0%R l.

(** The score of the specification: the sum over the query terms. *)
Definition tfidf (self : SimpleVectorStore) (query_terms : list string)
    (doc : chunk) : R :=
  sum_R (map (fun t => (TF doc t * IDF self t)%R) query_terms).

(** The copy of a stored chunk that [search] returns with a score. *)
Definition scored_copy (stored : chunk) (score : R) : chunk :=
  delete "tf" (delete "tokens" (<["score" := PNum score]> stored)).

(** An entry [(score, idx)] of the ranking and the dictionary returned
    for it. *)
Definition returned_for (self : SimpleVectorStore) (entry : R * nat)
    (r : chunk) : Prop :=
  exists stored, documents self !! entry.2 = Some stored
                 /\ r = scored_copy stored entry.1.

(** The order of the ranking: a higher score first, and among equal
    scores the earlier position first. *)
Definition ranks_before (x y : R * nat) : Prop :=
  (y.1 < x.1)%R \/ (x.1 = y.1 /\ x.2 < y.2).

(** *** Stored chunks *)

(** What [add_documents] stores for a chunk: the chunk with its
    [document_id], tokens and TF mapping. *)
Definition indexed (document_id : option string) (text : string) (c : chunk)
    : chunk :=
  <["tf" := PDict (_compute_tf (_tokenize text))]>
    (<["tokens" := PList (_tokenize text)]>
      (<["document_id" := id_value document_id]> c)).

(** The stored form of a chunk that came from the chunker. *)
Definition from_chunker (doc : chunk) : Prop :=
  exists sentences n document_id,
    doc = indexed document_id (Str.join " " sentences) (new_chunk sentences n).

(** The counters of a store agree with its chunks. *)
Record counted (self : SimpleVectorStore) : Prop := {
  counted_total : total_docs self = length (documents self);
  counted_freqs : forall term,
    count_of (doc_freqs self) term = containing term (documents self)
}.

(** The fields of a returned result. *)
Definition result_fields : gset string :=
  {[ "text"; "char_count"; "chunk_id"; "document_id"; "score" ]}.

(** The list [scores] of [search] before it is sorted, with the scores
    of the specification. *)
Definition scored (self : SimpleVectorStore) (query_terms : list string)
    : list (R * nat) :=
  imap (fun i doc => (tfidf self query_terms doc, i)) (documents self).

(** Entries in the order of their positions. *)
Definition by_position (x y : R * nat) : Prop := x.2 < y.2.

(** A chunk as the chunker builds it. *)
Definition chunker_made (c : chunk) : Prop :=
  exists sentences n, c = new_chunk sentences n.

(** What holds of a service throughout its life: the counters of its
    store agree with the stored chunks, and every stored chunk came from
    the chunker. *)
Record service_inv (self : RAGSystem) : Prop := {
  inv_counted : counted (vector_store self);
  inv_stored : Forall from_chunker (documents (vector_store self))
}.

(** *** Examples *)

(** A digest for the examples: the text itself, under which no two
    texts collide. *)
Definition plain_digest (text : string) : string := text.

Definition fresh_service : RAGSystem :=
  {| chunker := {| chunk_size := 50; chunk_overlap := 10 |};
     vector_store := SimpleVectorStore_init;
     document_hashes := ∅ |}.

Definition example_text : string :=
  "The cat sat. The dog ran far away today, did it not?".

(** The service after [add_document(example_text, "a.txt")]: two chunks. *)
Definition example_service : RAGSystem :=
  match add_document plain_digest fresh_service example_text (Some "a.txt") with
  | Ok (_, self) => self
  | Raise _ => fresh_service
  end.

(** *** More on the sentences of each chunk *)

(** The last of the closed groups, or no sentences when none is closed:
    what the open chunk carries over from. *)
Definition last_group (groups : list (list string)) : list string :=
  default [] (last groups).

(** The sentences of the groups without the ones each group carries
    over from the group before it; [prev] is the group before the
    first. *)
Fixpoint fresh_sentences (self : TextChunker) (prev : list string)
    (groups : list (list string)) : list string :=
  match groups with
  | [] => []
  | g :: rest =>
      (drop (length (_get_overlap_sentences self prev)) g
       ++ fresh_sentences self g rest)%list
  end.

(** A group that respects [chunk_size] once joined, or else consists of
    the sentences carried over from [prev] and one new sentence. *)
Definition within_size (self : TextChunker) (prev g : list string) : Prop :=
  (Str.len (Str.join " " g) <= chunk_size self)%Z
  \/ exists sentence, g = (_get_overlap_sentences self prev ++ [sentence])%list.

Fixpoint all_within_size (self : TextChunker) (prev : list string)
    (groups : list (list string)) : Prop :=
  match groups with
  | [] => True
  | g :: rest => within_size self prev g /\ all_within_size self g rest
  end.

(** What the loop of [chunk_text] maintains beyond [chunking_inv], after
    the sentences [seen]: the bookkeeping of [current_length], that no
    closed group is empty, that the sentences seen are the fresh
    sentences of the closed groups and of the open chunk, that no group
    holds another sentence, and the sizes. *)
Record coverage_inv (self : TextChunker) (seen : list string)
    (groups : list (list string)) (st : chunking) : Prop := {
  cov_base : chunking_inv self groups st;
  cov_length : current_length st
               = (sum_len (current_chunk st)
                  + Z.of_nat (length (current_chunk st)))%Z;
  cov_nonempty : Forall (fun g => g <> []) groups;
  cov_fresh : exists rest,
      current_chunk st
      = (_get_overlap_sentences self (last_group groups) ++ rest)%list
      /\ (fresh_sentences self [] groups ++ rest)%list = seen;
  cov_subset : Forall (fun g => g ⊆ seen) groups /\ current_chunk st ⊆ seen;
  cov_closed : all_within_size self [] groups;
  cov_open : current_chunk st = []
             \/ within_size self (last_group groups) (current_chunk st)
}.

(** A list of characters that does not start with white space. *)
Definition starts_solid (l : list ascii) : Prop :=
  match l with
  | [] => True
  | c :: _ => Char.isspace c = false
  end.

(** The group before the one at position [i], or no sentences for the
    first. *)
Definition group_before (groups : list (list string)) (i : nat) : list string :=
  match i with
  | 0 => []
  | S j => default [] (groups !! j)
  end.

(** The fields of a chunk as the chunker returns it. *)
Definition chunk_fields : gset string :=
  {[ "text"; "char_count"; "chunk_id" ]}.

(** *** Stored chunks, continued *)

(** [chunk['text']] of a chunk that has a text. *)
Definition text_field (c : chunk) : string :=
  match c !! "text" with
  | Some (PStr text) => text
  | _ => ""
  end.

(** What [add_documents] stores for the chunk [c]. *)
Definition stored_as (document_id : option string) (c : chunk) : chunk :=
  indexed document_id (text_field c) c.

(** The separator of [get_relevant_context]. *)
Definition context_separator : string :=
  String "010" (String "010" ("---" ++ String "010" (String "010" ""))).

(** ** app.py: the check of an uploaded file name *)

(** [Config.ALLOWED_EXTENSIONS] *)
Definition ALLOWED_EXTENSIONS : gset string :=
  {[ "pdf"; "pptx"; "ppt"; "docx"; "doc"; "txt"; "rtf" ]}.

Definition is_dot (c : ascii) : bool := (Char.code c =? 46)%N.

(** ['.' in s] *)
Definition has_dot (s : string) : bool := existsb is_dot (Str.chars s).

(** The characters before and behind the last dot, when there is a dot. *)
Fixpoint rsplit_dot_chars (l : list ascii) : option (list ascii * list ascii) :=
  match l with
  | [] => None
  | c :: l' =>
      match rsplit_dot_chars l' with
      | Some (before, behind) => Some (c :: before, behind)
      | None => if is_dot c then Some ([], l') else None
      end
  end.

(** [s.rsplit('.', 1)]: two parts, around the last dot, or [s] alone. *)
Definition rsplit_dot (s : string) : list string :=
  match rsplit_dot_chars (Str.chars s) with
  | Some (before, behind) => [Str.of_chars before; Str.of_chars behind]
  | None => [s]
  end.

(** [l[i]] *)
Definition item {A} (l : list A) (i : nat) : result A :=
  match l !! i with
  | Some a => Ok a
  | None => Raise IndexError
  end.

(** [allowed_file]; the right operand of [and] is evaluated only when the
    left one holds. *)
Definition allowed_file (filename : string) : result bool :=
  if has_dot filename then
    extension ← item (rsplit_dot filename) 1;
    Ok (bool_decide (Str.lower extension ∈ ALLOWED_EXTENSIONS))
  else Ok false.

(** ** document_processor.py: cleaning extracted text *)

(** The text an extractor hands to [_clean_text] is not confined to the
    characters below 256, and [_clean_text] itself names two characters
    above them. In this part a Python [str] is the list of its code
    points. *)
Module Uni.

(** [str.isspace] on one character, which is also the class [\s] for
    [str] patterns, over all code points. *)
Definition isspace (c : N) : bool :=
  ((9 <=? c) && (c <=? 13) || (28 <=? c) && (c <=? 32)
   || (c =? 133) || (c =? 160) || (c =? 5760)
   || (8192 <=? c) && (c <=? 8202) || (c =? 8232) || (c =? 8233)
   || (c =? 8239) || (c =? 8287) || (c =? 12288))%N.

Fixpoint lstrip (l : list N) : list N :=
  match l with
  | c :: l' => if isspace c then lstrip l' else l
  | [] => []
  end.

(** [s.strip()] *)
Definition strip (l : list N) : list N := rev (lstrip (rev (lstrip l))).

(** [s.replace(old, '')] for a string [old] of one character. *)
Definition remove (old : N) (l : list N) : list N :=
  filter (fun c => c <> old) l.

End Uni.

(** [re.sub(r'\s+', ' ', text)]: every maximal run of white space
    becomes one space; [in_run] tells whether the previous character was
    white space. *)
Fixpoint collapse_spaces (in_run : bool) (l : list N) : list N :=
  match l with
  | [] => []
  | c :: l' =>
      if Uni.isspace c then
        if in_run then collapse_spaces true l'
        else 32%N :: collapse_spaces true l'
      else c :: collapse_spaces false l'
  end.

(** The class [[\x00-\x08\x0b\x0c\x0e-\x1f\x7f-\x9f]]. *)
Definition is_control (c : N) : bool :=
  ((c <=? 8) || (11 <=? c) && (c <=? 12) || (14 <=? c) && (c <=? 31)
   || (127 <=? c) && (c <=? 159))%N.

Definition is_newline (c : N) : bool := (c =? 10)%N.

(** U+FEFF, the byte order mark, and U+200B, the zero width space. *)
Definition byte_order_mark : N := 65279.
Definition zero_width_space : N := 8203.

(** For [\s*\n] at the head of [l]: the offset of the last line feed in
    the run of white space that [l] starts with. *)
Fixpoint last_newline (l : list N) : option nat :=
  match l with
  | [] => None
  | c :: l' =>
      if Uni.isspace c then
        match last_newline l' with
        | Some k => Some (S k)
        | None => if is_newline c then Some 0 else None
        end
      else None
  end.

(** [re.sub(r'\n\s*\n', '\n\n', text)]: scanning from the left, a line
    feed followed by white space up to a last line feed becomes two line
    feeds; [skip] counts the characters of the current match still to
    pass. *)
Fixpoint sub_blank_lines (skip : nat) (l : list N) : list N :=
  match l with
  | [] => []
  | c :: l' =>
      match skip with
      | S k => sub_blank_lines k l'
      | O =>
          if is_newline c then
            match last_newline l' with
            | Some k => 10%N :: 10%N :: sub_blank_lines (S k) l'
            | None => c :: sub_blank_lines 0 l'
            end
          else c :: sub_blank_lines 0 l'
      end
  end.

(** [DocumentProcessor._clean_text] *)
Definition _clean_text (text : list N) : list N :=
  match text with
  | [] => []
  | _ =>
      let text := collapse_spaces false text in
      let text := filter (fun c => is_control c = false) text in
      let text := Uni.remove zero_width_space (Uni.remove byte_order_mark text) in
      let text := sub_blank_lines 0 text in
      Uni.strip text
  end.

(** The code points of a string of the characters below 256. *)
Definition code_points (s : string) : list N :=
  map N_of_ascii (list_ascii_of_string s).

(** A text that does not begin with white space. *)
Definition begins_solid (l : list N) : Prop :=
  match l with
  | [] => True
  | c :: _ => Uni.isspace c = false
  end.

(** What [_table_to_text] makes of one cell:
    [str(cell).strip() if cell else '']. A cell is a string or [None]. *)
Definition cell_text (cell : option string) : string :=
  match cell with
  | Some s => if decide (s = "") then "" else Str.strip s
  | None => ""
  end.

(** The loop of [_table_to_text]: the lines of the rows that have a cell
    with text. *)
Definition table_rows (table : list (list (option string))) : list string :=
  omap (fun row =>
          match row with
          | [] => None
          | _ =>
              let cells := map cell_text row in
              if existsb (fun cell => negb (String.eqb cell "")) cells
              then Some (Str.join " | " cells)
              else None
          end) table.

(** [DocumentProcessor._table_to_text] *)
Definition _table_to_text (table : list (list (option string))) : string :=
  match table with
  | [] => ""
  | _ =>
      let rows := table_rows table in
      match rows with
      | [] => ""
      | _ => Str.join (String "010" "") rows
      end
  end.

(** ** quiz_generator.py: one question of a parsed response *)

(** Whether [needle in s]. *)
Fixpoint starts_with (needle l : list ascii) : bool :=
  match needle, l with
  | [], _ => true
  | n :: needle', c :: l' => if Ascii.eqb n c then starts_with needle' l' else false
  | _ :: _, [] => false
  end.

Fixpoint contains_chars (needle l : list ascii) : bool :=
  starts_with needle l
  || match l with
     | [] => false
     | _ :: l' => contains_chars needle l'
     end.

Definition str_contains (needle s : string) : bool :=
  contains_chars (Str.chars needle) (Str.chars s).

(** The class [[A-Da-d]]. *)
Definition is_option_letter (c : ascii) : bool :=
  Char.between 65 68 c || Char.between 97 100 c.

(** The class [[.)]]. *)
Definition is_option_mark (c : ascii) : bool :=
  (Char.code c =? 46)%N || (Char.code c =? 41)%N.

(** [re.sub(r'^[A-Da-d][.)]\s*', '', s)]: a letter, a mark and the white
    space behind them are removed from the start. *)
Definition strip_option_prefix (s : string) : string :=
  match Str.chars s with
  | letter :: mark :: rest =>
      if is_option_letter letter && is_option_mark mark
      then Str.of_chars (Str.lstrip_chars rest)
      else s
  | _ => s
  end.

(** [c.upper()] for a character of [[A-Da-d]]. *)
Definition upper_letter (c : ascii) : ascii :=
  if Char.between 97 100 c then ascii_of_N (Char.code c - 32) else c.

(** [re.match(r'^([A-Da-d])', s)] and then [group(1).upper()]. *)
Definition leading_letter (s : string) : option string :=
  match Str.chars s with
  | c :: _ => if is_option_letter c
              then Some (String (upper_letter c) "")
              else None
  | [] => None
  end.

Section Quiz.

(** The floats of a parsed response: the code only asks whether one is
    zero, and prints it. *)
Variable pyfloat : Type.
Variable float_truth : pyfloat -> bool.

(** What [json.loads] returns. *)
#[warnings="-register-all"]
Inductive json : Type :=
  | JNull
  | JBool (b : bool)
  | JInt (z : Z)
  | JFloat (x : pyfloat)
  | JStr (s : string)
  | JList (l : list json)
  | JObj (m : gmap string json).

(** [str(v)] for a value that is not a string. *)
Variable py_str : json -> string.

(** [str(v)] *)
Definition str_of (v : json) : string :=
  match v with
  | JStr s => s
  | _ => py_str v
  end.

(** [bool(v)] *)
Definition truthy (v : json) : bool :=
  match v with
  | JNull => false
  | JBool b => b
  | JInt z => negb (z =? 0)%Z
  | JFloat x => float_truth x
  | JStr s => negb (String.eqb s "")
  | JList l => match l with [] => false | _ => true end
  | JObj m => negb (bool_decide (m = ∅))
  end.

(** [d.get(key, default)] *)
Definition get (d : gmap string json) (key : string) (default : json) : json :=
  match d !! key with
  | Some v => v
  | None => default
  end.

(** [q.get] is an attribute of a dictionary. *)
Definition as_obj (q : json) : result (gmap string json) :=
  match q with
  | JObj m => Ok m
  | _ => Raise AttributeError
  end.

(** [v.lower()] is an attribute of a string. *)
Definition lower_of (v : json) : result string :=
  match v with
  | JStr s => Ok (Str.lower s)
  | _ => Raise AttributeError
  end.

(** The body of the loop over [options[:4]]. *)
Definition format_option (i : nat) (opt : json) : json :=
  let opt_str := Str.strip (str_of opt) in
  let letter := String (ascii_of_nat (65 + i)) "" in
  let opt_str := strip_option_prefix opt_str in
  JStr (letter ++ ") " ++ opt_str).

(** The options stored for a QCM question. *)
Definition qcm_options (options : json) : json :=
  match options with
  | JList l =>
      if decide (4 <= length l) then JList (imap format_option (take 4 l))
      else if truthy options then options else JList []
  | _ => if truthy options then options else JList []
  end.

(** The answer stored for a QCM question. *)
Definition qcm_answer (correct : json) : json :=
  match correct with
  | JStr s =>
      match leading_letter (Str.strip s) with
      | Some letter => JStr letter
      | None => JStr "A"
      end
  | _ => JStr "A"
  end.

(** The answer stored for a Vrai/Faux question. *)
Definition vrai_faux_answer (q : gmap string json) : json :=
  let correct := Str.lower (Str.strip (str_of (get q "correct_answer" (JStr "")))) in
  if str_contains "vrai" correct || str_contains "true" correct then JStr "Vrai"
  else if str_contains "faux" correct || str_contains "false" correct then JStr "Faux"
  else get q "correct_answer" (JStr "Vrai").

(** [question_types[0] if question_types else 'qcm'] *)
Definition default_type (question_types : list string) : string :=
  match question_types with
  | t :: _ => t
  | [] => "qcm"
  end.

(** The dictionary [processed] as [_process_question] first builds it. *)
Definition question_base (q : gmap string json) (index : Z) (difficulty : string)
    (question_types : list string) : gmap string json :=
  <["id" := JInt index]>
    (<["question" := get q "question" (JStr "")]>
      (<["type" := get q "type" (JStr (default_type question_types))]>
        (<["difficulty" := get q "difficulty" (JStr difficulty)]>
          (<["explanation" := get q "explanation" (JStr "")]> ∅)))).

(** The three branches on [q_type], which complete [processed]. *)
Definition with_answer (q_type : string) (q processed : gmap string json)
    : gmap string json :=
  if String.eqb q_type "qcm" then
    let options := get q "options" (JList []) in
    let processed := <["options" := qcm_options options]> processed in
    let correct := get q "correct_answer" (JStr "A") in
    <["correct_answer" := qcm_answer correct]> processed
  else if String.eqb q_type "vrai_faux" then
    <["correct_answer" := vrai_faux_answer q]> processed
  else
    <["correct_answer" := get q "correct_answer" (JStr "")]> processed.

(** [QuizGenerator._process_question]; [None] is the question left out.
    [q_type] is [processed['type'].lower()]. *)
Definition _process_question (q : json) (index : Z) (difficulty : string)
    (question_types : list string) : result (option (gmap string json)) :=
  q ← as_obj q;
  if negb (truthy (get q "question" JNull)) then Ok None
  else
    let processed := question_base q index difficulty question_types in
    q_type ← lower_of (get q "type" (JStr (default_type question_types)));
    Ok (Some (with_answer q_type q processed)).

End Quiz.

(** The letters of the four options. *)
Definition option_letters : list string := ["A"; "B"; "C"; "D"].

(** A parsed question for the examples: no floats, and [str] prints
    nothing for a value that is not a string. *)
Definition example_question : gmap string (json Empty_set) :=
  <["question" := JStr _ "Which one?"]>
    (<["type" := JStr _ "QCM"]>
      (<["options" := JList _ [JStr _ "a) one"; JStr _ " two "; JStr _ "C.  three";
                               JStr _ "four"; JStr _ "five"]]>
        (<["correct_answer" := JStr _ " b) two"]> ∅))).

(** * Properties *)

(** ** Strings *)

Lemma len_append (s1 s2 : string) :
  Str.len (s1 ++ s2) = (Str.len s1 + Str.len s2)%Z.
Proof.
  unfold Str.len. induction s1 as [|c s1 IH]; simpl; [done|].
  unfold Str.len in IH. lia.
Qed.

Lemma len_nonneg (s : string) : (0 <= Str.len s)%Z.
Proof. unfold Str.len. lia. Qed.

Lemma sum_len_app (l1 l2 : list string) :
  sum_len (l1 ++ l2)%list = (sum_len l1 + sum_len l2)%Z.
Proof. induction l1 as [|s l1 IH]; simpl; lia. Qed.

Lemma sum_len_nonneg (l : list string) : (0 <= sum_len l)%Z.
Proof. induction l as [|s l IH]; simpl; [done|]. pose proof (len_nonneg s). lia. Qed.

(** The length of [' '.join(l)]: the sentences and one space between
    neighbours. *)
Lemma len_join_space (l : list string) :
  Str.len (Str.join " " l) = (sum_len l + Z.of_nat (length l - 1))%Z.
Proof.
  induction l as [|s [|s' l] IH]; [done| |].
  - simpl. lia.
  - change (Str.join " " (s :: s' :: l)) with (s ++ " " ++ Str.join " " (s' :: l)).
    rewrite !len_append, IH. simpl. unfold Str.len at 2. simpl. lia.
Qed.

(** ** The model on small inputs *)

Example split_example :
  _split_into_sentences "A cat sat.  A dog ran!Fast? Yes. "
  = ["A cat sat."; "A dog ran!Fast?"; "Yes."].
Proof. reflexivity. Qed.

Example tokenize_example :
  _tokenize "The cat's ab_cd x1, WORLD! It is 42nd."
  = ["the"; "cat"; "world"; "42nd"].
Proof. reflexivity. Qed.

Example chunk_text_example :
  (fun c => c !! "text")
    <$> chunk_text {| chunk_size := 50; chunk_overlap := 10 |}
          "A cat sat. A dog ran far away today. A bird flew high."
  = [Some (PStr "A cat sat. A dog ran far away today.");
     Some (PStr "A bird flew high.")].
Proof. vm_compute. reflexivity. Qed.

Example chunk_text_blank : chunk_text {| chunk_size := 50; chunk_overlap := 10 |} "   " = [].
Proof. reflexivity. Qed.

Example slice_to_example :
  slice_to 2 [1; 2; 3] = [1; 2] /\ slice_to 0 [1; 2; 3] = []
  /\ slice_to (-1) [1; 2; 3] = [1; 2] /\ slice_to (-5) [1; 2; 3] = [].
Proof. by repeat split. Qed.

(** ** The chunker *)

Lemma overlap_loop_taken (self : TextChunker) (reversed acc : list string) (n : Z) :
  exists k, overlap_loop self n acc reversed = (rev (take k reversed) ++ acc)%list.
Proof.
  revert acc n. induction reversed as [|s rest IH]; intros acc n; simpl.
  - by exists 0.
  - destruct (n + Str.len s <=? chunk_overlap self)%Z.
    + destruct (IH (s :: acc) (n + Str.len s)%Z) as [k Hk].
      exists (S k). rewrite Hk. simpl. by rewrite <- app_assoc.
    + by exists 0.
Qed.

Lemma overlap_loop_bound (self : TextChunker) (reversed acc : list string) (n : Z) :
  n = sum_len acc ->
  acc = [] \/ (sum_len acc <= chunk_overlap self)%Z ->
  overlap_loop self n acc reversed = []
  \/ (sum_len (overlap_loop self n acc reversed) <= chunk_overlap self)%Z.
Proof.
  revert acc n. induction reversed as [|s rest IH]; intros acc n Hn Hacc; simpl.
  - done.
  - destruct (n + Str.len s <=? chunk_overlap self)%Z eqn:Hfit; [|done].
    apply IH; simpl; [lia|]. right. apply Z.leb_le in Hfit. lia.
Qed.

(** The sentences carried over are the last sentences of the chunk, in
    their order. *)
Lemma overlap_suffix (self : TextChunker) (g : list string) :
  _get_overlap_sentences self g `suffix_of` g.
Proof.
  destruct g as [|s g]; [by exists []|].
  unfold _get_overlap_sentences.
  destruct (overlap_loop_taken self (rev (s :: g)) [] 0) as [k ->].
  exists (rev (drop k (rev (s :: g)))).
  rewrite app_nil_r, <- rev_app_distr, take_drop. by rewrite rev_involutive.
Qed.

(** Their lengths add up to at most [chunk_overlap]. *)
Lemma overlap_sum_len (self : TextChunker) (g : list string) :
  (0 <= chunk_overlap self)%Z ->
  (sum_len (_get_overlap_sentences self g) <= chunk_overlap self)%Z.
Proof.
  intros Hco. destruct g as [|s g]; [done|].
  unfold _get_overlap_sentences.
  destruct (overlap_loop_bound self (rev (s :: g)) [] 0) as [-> | H];
    [done | by left | done | done].
Qed.



Lemma carries_nonempty (self : TextChunker) (g : list string) :
  ~ carries self g [].
Proof.
  intros (rest & Hrest & Heq). symmetry in Heq.
  apply app_eq_nil in Heq as [_ ?]. done.
Qed.

Lemma flush_inv (self : TextChunker) groups st :
  chunking_inv self groups st ->
  let groups' := flush_groups groups st in
  (forall i g g', groups' !! i = Some g -> groups' !! S i = Some g' ->
                  carries self g g')
  /\ flush st = imap (fun i g => new_chunk g i) groups'
  /\ (forall c, current_chunk st = c -> c <> [] -> last groups' = Some c).
Proof.
  intros [Hn Ho Hc]. unfold flush_groups, flush.
  destruct (current_chunk st) as [|s c] eqn:Hcur; simpl.
  - split; [done|]. split; [done|]. by intros c <-.
  - split; [|split].
    + intros i g g' Hi HSi.
      destruct (decide (S i < length groups)) as [Hlt|Hge].
      * rewrite lookup_app_l in Hi by lia. rewrite lookup_app_l in HSi by lia.
        by eapply Hn.
      * assert (S i = length groups) as Hlen.
        { apply lookup_lt_Some in HSi. rewrite length_app in HSi. simpl in HSi. lia. }
        rewrite lookup_app_l in Hi by lia.
        rewrite lookup_app_r in HSi by lia.
        rewrite Hlen, Nat.sub_diag in HSi. simpl in HSi. injection HSi as <-.
        apply Ho. rewrite last_lookup, <- Hlen. done.
    + rewrite Hc, imap_app. simpl. rewrite length_imap, Nat.add_0_r. done.
    + intros c' <- _. by rewrite last_snoc.
Qed.

Lemma group_step_inv (self : TextChunker) groups st sentence :
  chunking_inv self groups st ->
  chunking_inv self (group_step self (groups, st) sentence).1
                    (group_step self (groups, st) sentence).2.
Proof.
  intros Hinv. pose proof (flush_inv self groups st Hinv) as (Hn' & Hc' & Hl').
  destruct Hinv as [Hn Ho Hc].
  unfold group_step, chunk_step. simpl.
  destruct (current_length st + Str.len sentence <=? chunk_size self)%Z; simpl.
  - split; simpl; [done| |done].
    intros g Hg. destruct (Ho g Hg) as (rest & Hrest & ->).
    exists (rest ++ [sentence])%list. split; [|by rewrite app_assoc].
    intros [? _]%app_eq_nil. done.
  - split; simpl; [done| |done].
    intros g Hg. exists [sentence]. split; [done|].
    destruct (current_chunk st) as [|s c] eqn:Hcur.
    + unfold flush_groups in Hg. rewrite Hcur in Hg.
      destruct (carries_nonempty self g (Ho g Hg)).
    + rewrite (Hl' (s :: c)) in Hg by done. by injection Hg as <-.
Qed.

Lemma foldl_group_step_inv (self : TextChunker) sentences groups st :
  chunking_inv self groups st ->
  chunking_inv self (foldl (group_step self) (groups, st) sentences).1
                    (foldl (group_step self) (groups, st) sentences).2.
Proof.
  revert groups st. induction sentences as [|s l IH]; intros groups st Hinv; [done|].
  simpl. pose proof (group_step_inv self groups st s Hinv) as H.
  destruct (group_step self (groups, st) s) as [groups' st']. by apply IH.
Qed.

Lemma foldl_group_step_snd (self : TextChunker) sentences acc :
  (foldl (group_step self) acc sentences).2 = foldl (chunk_step self) acc.2 sentences.
Proof.
  revert acc. induction sentences as [|s l IH]; intros acc; [done|].
  simpl. by rewrite IH.
Qed.

Lemma initial_inv (self : TextChunker) : chunking_inv self [] initial_chunking.
Proof. split; [intros i g g' Hi; by destruct i | done | done]. Qed.

(** The chunks of [chunk_text] are the dictionaries of the sentence
    groups, numbered from 0. *)
Lemma chunk_text_groups (self : TextChunker) (text : string) :
  chunk_text self text = imap (fun i g => new_chunk g i) (sentence_groups self text).
Proof.
  unfold chunk_text, sentence_groups.
  destruct (decide (text = "" \/ Str.strip text = "")); [done|].
  pose proof (foldl_group_step_inv self (_split_into_sentences (Str.strip text))
                [] initial_chunking (initial_inv self)) as Hinv.
  apply flush_inv in Hinv as (_ & Hc & _).
  rewrite foldl_group_step_snd in Hc at 1. exact Hc.
Qed.

Lemma sentence_groups_neighbours (self : TextChunker) (text : string) i g g' :
  sentence_groups self text !! i = Some g ->
  sentence_groups self text !! S i = Some g' ->
  carries self g g'.
Proof.
  unfold sentence_groups.
  destruct (decide (text = "" \/ Str.strip text = "")); [by destruct i|].
  pose proof (foldl_group_step_inv self (_split_into_sentences (Str.strip text))
                [] initial_chunking (initial_inv self)) as Hinv.
  apply flush_inv in Hinv as (Hn & _ & _). apply Hn.
Qed.

Lemma sentence_groups_sentences (self : TextChunker) (text : string) :
  sentences_of text = [] -> sentence_groups self text = [].
Proof.
  unfold sentence_groups, sentences_of. intros ->.
  by destruct (decide (text = "" \/ Str.strip text = "")).
Qed.

(** C4 (as amended): when no sentence of the text is longer than
    [chunk_overlap], the sentences carried over from chunk [i] to chunk
    [i+1] are the last sentences of chunk [i], chunk [i+1] starts with
    them, and their lengths add up to at most [chunk_overlap]; joined by
    single spaces, as in the text of chunk [i+1], they take at most
    [chunk_overlap] characters and one more for each space. *)
Theorem overlap_bound (self : TextChunker) (text : string) (i : nat)
    (g g' : list string) :
  Forall (fun s => (Str.len s <= chunk_overlap self)%Z) (sentences_of text) ->
  sentence_groups self text !! i = Some g ->
  sentence_groups self text !! S i = Some g' ->
  let carried := _get_overlap_sentences self g in
  chunk_text self text !! i = Some (new_chunk g i)
  /\ chunk_text self text !! S i = Some (new_chunk g' (S i))
  /\ carried `suffix_of` g
  /\ (exists rest, rest <> [] /\ g' = (carried ++ rest)%list)
  /\ (sum_len carried <= chunk_overlap self)%Z
  /\ (Str.len (Str.join " " carried)
      <= chunk_overlap self + Z.of_nat (length carried - 1))%Z.
Proof.
  intros Hshort Hi HSi carried.
  assert (0 <= chunk_overlap self)%Z as Hco.
  { destruct (sentences_of text) as [|s l] eqn:Hs.
    - rewrite (sentence_groups_sentences self text Hs) in Hi. done.
    - apply Forall_cons in Hshort as [Hlen _]. cbv beta in Hlen.
      pose proof (len_nonneg s) as Hpos. clear -Hpos Hlen. lia. }
  pose proof (overlap_sum_len self g Hco) as Hsum.
  rewrite !chunk_text_groups, !list_lookup_imap, Hi, HSi.
  repeat split; try done.
  - apply overlap_suffix.
  - apply (sentence_groups_neighbours self text i g g' Hi HSi).
  - rewrite len_join_space. subst carried. lia.
Qed.

Lemma overlap_bound_witness :
  let self := {| chunk_size := 50; chunk_overlap := 30 |} in
  let g := ["A cat sat."; "A dog ran far away today."] in
  (sum_len (_get_overlap_sentences self g) <= chunk_overlap self)%Z.
Proof.
  intros self g.
  apply (overlap_bound self "A cat sat. A dog ran far away today. A bird flew high."
           0 g ["A dog ran far away today."; "A bird flew high."]).
  - vm_compute. repeat constructor; discriminate.
  - reflexivity.
  - reflexivity.
Defined.

(** C4 (as stated) fails: with [chunk_size = 12] and [chunk_overlap = 10]
    no sentence of the text is longer than 10, both sentences of the
    first chunk are carried over, and joined they open the second chunk
    with 11 characters. *)
Lemma overlap_joined_exceeds :
  let self := {| chunk_size := 12; chunk_overlap := 10 |} in
  let text := "Abcd. Efgh. Ijklmnop." in
  Forall (fun s => (Str.len s <= chunk_overlap self)%Z) (sentences_of text)
  /\ sentence_groups self text
     = [["Abcd."; "Efgh."]; ["Abcd."; "Efgh."; "Ijklmnop."]]
  /\ _get_overlap_sentences self ["Abcd."; "Efgh."] = ["Abcd."; "Efgh."]
  /\ chunk_text self text !! 1 ≫= (fun c => c !! "text")
     = Some (PStr "Abcd. Efgh. Ijklmnop.")
  /\ Str.join " " (_get_overlap_sentences self ["Abcd."; "Efgh."]) = "Abcd. Efgh."
  /\ ~ (Str.len (Str.join " " (_get_overlap_sentences self ["Abcd."; "Efgh."]))
        <= chunk_overlap self)%Z.
Proof.
  intros self text. repeat split.
  - vm_compute. repeat constructor; discriminate.
  - vm_compute. intros H. by apply H.
Qed.

(** ** The result monad *)


Lemma mapM_Forall2 {A B} (f : A -> result B) (P : A -> B -> Prop) (l : list A) :
  Forall (fun a => exists b, f a = Ok b /\ P a b) l ->
  exists bs, mapM f l = Ok bs /\ Forall2 P l bs.
Proof.
  induction 1 as [|a l (b & Hb & HP) _ (bs & Hbs & IH)]; simpl.
  - exists []. by split.
  - exists (b :: bs). rewrite Hb. simpl. rewrite Hbs. simpl. split; [done|].
    by constructor.
Qed.

(** ** Counters *)

Lemma occurrences_not_in (term : string) (tokens : list string) :
  term ∉ tokens -> occurrences term tokens = 0.
Proof.
  unfold occurrences. induction tokens as [|t l IH]; intros Hnot; [done|].
  apply not_elem_of_cons in Hnot as [Hne Hl].
  rewrite filter_cons_False by congruence. auto.
Qed.

Lemma occurrences_cons (term t : string) (tokens : list string) :
  occurrences term (t :: tokens)
  = (if decide (t = term) then 1 else 0) + occurrences term tokens.
Proof.
  unfold occurrences. destruct (decide (t = term)).
  - by rewrite filter_cons_True.
  - by rewrite filter_cons_False.
Qed.

Lemma count_of_incr (counter : gmap string nat) (t term : string) :
  count_of (incr t counter) term
  = (if decide (t = term) then 1 else 0) + count_of counter term.
Proof.
  unfold incr, count_of. destruct (decide (t = term)) as [->|Hne].
  - by rewrite lookup_insert_eq.
  - by rewrite lookup_insert_ne.
Qed.

Lemma lookup_incr_fold (tokens : list string) (m : gmap string nat) (term : string) :
  foldl (fun tf t => incr t tf) m tokens !! term
  = if decide (term ∈ tokens)
    then Some (count_of m term + occurrences term tokens)
    else m !! term.
Proof.
  revert m. induction tokens as [|t l IH]; intros m; cbn [foldl].
  - rewrite decide_False; [done | apply not_elem_of_nil].
  - rewrite IH, occurrences_cons, count_of_incr.
    destruct (decide (term ∈ l)) as [Hin|Hnot].
    + rewrite (decide_True (P := term ∈ t :: l))
        by (by apply list_elem_of_further).
      f_equal. destruct (decide (t = term)); lia.
    + destruct (decide (t = term)) as [->|Hne].
      * rewrite (decide_True (P := term ∈ term :: l)) by apply list_elem_of_here.
        unfold incr.
        rewrite lookup_insert_eq, occurrences_not_in by done. f_equal. lia.
      * rewrite (decide_False (P := term ∈ t :: l))
          by (intros [?|?]%elem_of_cons; congruence).
        unfold incr. by rewrite lookup_insert_ne.
Qed.

Lemma lookup_Counter (tokens : list string) (term : string) :
  Counter tokens !! term
  = if decide (term ∈ tokens) then Some (occurrences term tokens) else None.
Proof. unfold Counter. rewrite lookup_incr_fold. by destruct (decide _). Qed.

(** The TF mapping of a token list gives each term that occurs its share
    of the tokens, and holds no other term. *)
Lemma lookup_compute_tf (tokens : list string) (term : string) :
  _compute_tf tokens !! term
  = if decide (term ∈ tokens)
    then Some (INR (occurrences term tokens) / INR (length tokens))%R
    else None.
Proof.
  unfold _compute_tf. destruct (decide (length tokens = 0)) as [Hlen|Hlen].
  - apply length_zero_iff_nil in Hlen as ->.
    rewrite decide_False; [done | apply not_elem_of_nil].
  - rewrite lookup_fmap, lookup_Counter. by destruct (decide _).
Qed.

Lemma count_of_set_fold (m : gmap string nat) (X : gset string) (term : string) :
  count_of (set_fold incr m X) term
  = count_of m term + (if decide (term ∈ X) then 1 else 0).
Proof.
  revert X.
  apply (set_fold_ind_L
           (fun r (Y : gset string) => count_of r term
                       = count_of m term + (if decide (term ∈ Y) then 1 else 0))).
  - rewrite decide_False; [lia | set_solver].
  - intros x Y r Hx IH. rewrite count_of_incr, IH.
    destruct (decide (x = term)) as [->|Hne].
    + rewrite (decide_False (P := term ∈ Y)) by done.
      rewrite decide_True by set_solver. lia.
    + destruct (decide (term ∈ Y)).
      * rewrite decide_True by set_solver. lia.
      * rewrite decide_False by set_solver. lia.
Qed.

Lemma containing_app (term : string) (docs1 docs2 : list chunk) :
  containing term (docs1 ++ docs2)%list
  = containing term docs1 + containing term docs2.
Proof. unfold containing. by rewrite filter_app, length_app. Qed.

Lemma containing_one (term : string) (doc : chunk) :
  containing term [doc] = if decide (term ∈ chunk_tokens doc) then 1 else 0.
Proof.
  unfold containing. destruct (decide (term ∈ chunk_tokens doc)).
  - by rewrite filter_cons_True.
  - by rewrite filter_cons_False.
Qed.

Lemma containing_le (term : string) (docs : list chunk) :
  containing term docs <= length docs.
Proof. unfold containing. apply length_filter. Qed.

(** ** Ingestion *)

Lemma chunk_tokens_indexed document_id text c :
  chunk_tokens (indexed document_id text c) = _tokenize text.
Proof.
  unfold chunk_tokens, indexed.
  rewrite lookup_insert_ne by done. by rewrite lookup_insert_eq.
Qed.

Lemma lookup_text_new_chunk g n :
  new_chunk g n !! "text" = Some (PStr (Str.join " " g)).
Proof. unfold new_chunk. by rewrite lookup_insert_eq. Qed.

Lemma add_chunk_text document_id self c text :
  c !! "text" = Some (PStr text) ->
  add_chunk document_id self c
  = Ok {| documents := (documents self ++ [indexed document_id text c])%list;
          doc_freqs := set_fold incr (doc_freqs self)
                         (list_to_set (_tokenize text) : gset string);
          total_docs := S (total_docs self) |}.
Proof.
  intros Htext. unfold add_chunk, getitem.
  rewrite lookup_insert_ne by done. rewrite Htext. done.
Qed.

Lemma add_chunk_counted document_id self c text self' :
  c !! "text" = Some (PStr text) ->
  add_chunk document_id self c = Ok self' ->
  counted self ->
  counted self'.
Proof.
  intros Htext Hadd [Htotal Hfreqs].
  rewrite (add_chunk_text _ _ _ _ Htext) in Hadd. injection Hadd as <-.
  split; cbn [documents doc_freqs total_docs].
  - rewrite length_app, Htotal. simpl. lia.
  - intros term.
    rewrite count_of_set_fold, containing_app, containing_one, Hfreqs.
    rewrite chunk_tokens_indexed. f_equal.
    destruct (decide (term ∈ _tokenize text)) as [Hin|Hnot].
    + rewrite decide_True; [done | by apply elem_of_list_to_set].
    + rewrite decide_False; [done | by rewrite elem_of_list_to_set].
Qed.

Lemma chunk_text_made (self : TextChunker) (text : string) :
  Forall chunker_made (chunk_text self text).
Proof.
  rewrite chunk_text_groups. apply Forall_lookup. intros i c.
  rewrite list_lookup_imap. destruct (sentence_groups self text !! i) as [g|]; [|done].
  intros [= <-]. by exists g, i.
Qed.

Lemma counted_empty : counted SimpleVectorStore_init.
Proof. by split. Qed.

(** Chunks of the chunker are always accepted; the store then holds
    them behind the chunks it held, and its counters still agree. *)
Lemma add_documents_made (chunks : list chunk) (self : SimpleVectorStore)
    (document_id : option string) :
  Forall chunker_made chunks ->
  exists self',
    add_documents self chunks document_id = Ok self'
    /\ length (documents self') = length (documents self) + length chunks
    /\ (counted self -> counted self')
    /\ (Forall from_chunker (documents self) ->
        Forall from_chunker (documents self')).
Proof.
  intros Hmade. revert self.
  induction Hmade as [|c chunks (g & n & ->) _ IH]; intros self.
  - exists self. simpl. split; [done|]. split; [lia|]. by split.
  - unfold add_documents. simpl.
    rewrite (add_chunk_text _ _ _ _ (lookup_text_new_chunk g n)). simpl.
    set (self1 := {| documents := _ |}).
    destruct (IH self1) as (self' & Hadd & Hlen & Hcount & Hstored).
    exists self'. split; [exact Hadd|].
    split; [|split].
    + rewrite Hlen. unfold self1. simpl. rewrite length_app. simpl. lia.
    + intros Hc. apply Hcount.
      eapply add_chunk_counted; [apply (lookup_text_new_chunk g n) | | exact Hc].
      apply add_chunk_text, lookup_text_new_chunk.
    + intros Hs. apply Hstored. unfold self1. simpl.
      apply Forall_app. split; [done|]. constructor; [|done].
      by exists g, n, document_id.
Qed.

(** Unfolds a call that returned: from [m ≫= f = Ok x] to the value of
    [m] and the equation for [f]. *)
Ltac returned H :=
  match type of H with
  | (?m ≫= _) = Ok _ =>
      let E := fresh "E" in
      destruct m eqn:E; simpl in H; [|discriminate H]
  end.

Section ServiceInvariant.

Variable md5_hexdigest : string -> string.

Lemma add_document_inv (self : RAGSystem) text document_id n self' :
  add_document md5_hexdigest self text document_id = Ok (n, self') ->
  service_inv self -> service_inv self'.
Proof.
  unfold add_document. intros Hadd [Hc Hs].
  destruct (decide (md5_hexdigest text ∈ document_hashes self)).
  - injection Hadd as _ <-. by split.
  - destruct (add_documents_made (chunk_text (chunker self) text)
                (vector_store self) document_id (chunk_text_made _ _))
      as (store & Hstore & _ & Hcount & Hstored).
    rewrite Hstore in Hadd. simpl in Hadd. injection Hadd as _ <-.
    split; simpl; auto.
Qed.

Lemma perform_inv (self : RAGSystem) (c : call) r self' :
  perform md5_hexdigest self c = Ok (r, self') ->
  service_inv self -> service_inv self'.
Proof.
  intros Hcall Hinv. destruct c; simpl in Hcall.
  - returned Hcall. destruct a as [n s]. injection Hcall as _ <-.
    by eapply add_document_inv.
  - returned Hcall. by injection Hcall as _ <-.
  - returned Hcall. by injection Hcall as _ <-.
  - returned Hcall. by injection Hcall as _ <-.
  - injection Hcall as _ <-. split; simpl; [apply counted_empty | done].
  - by injection Hcall as _ <-.
Qed.

Lemma reachable_inv (self : RAGSystem) :
  reachable md5_hexdigest self -> service_inv self.
Proof.
  induction 1 as [cs co self Hinit | self c r self' _ IH Hcall].
  - injection Hinit as <-. split; simpl; [apply counted_empty | done].
  - by eapply perform_inv.
Qed.

End ServiceInvariant.

(** ** Scoring *)

Lemma idf_agrees (self : SimpleVectorStore) (term : string) :
  counted self -> _compute_idf self term = IDF self term.
Proof.
  intros [Htotal Hfreqs]. unfold _compute_idf, IDF.
  destruct (decide (total_docs self = 0)) as [Hzero|Hpos].
  - rewrite Hfreqs. rewrite Hzero in Htotal. symmetry in Htotal.
    apply length_zero_iff_nil in Htotal. rewrite Htotal.
    by rewrite decide_False by (unfold containing; simpl; lia).
  - destruct (decide (count_of (doc_freqs self) term = 0)) as [Hdf|Hdf].
    + by rewrite decide_False by lia.
    + by rewrite decide_True by lia.
Qed.

Lemma TF_absent (doc : chunk) (term : string) :
  term ∉ chunk_tokens doc -> TF doc term = 0%R.
Proof.
  intros Hnot. unfold TF. rewrite occurrences_not_in by done.
  simpl. unfold Rdiv. apply Rmult_0_l.
Qed.

Lemma getitem_tf_indexed document_id text c :
  getitem (indexed document_id text c) "tf" ≫= as_dict
  = Ok (_compute_tf (_tokenize text)).
Proof. unfold getitem, indexed. by rewrite lookup_insert_eq. Qed.

Lemma score_loop_sum (self : SimpleVectorStore) (doc : chunk)
    (query_tokens : list string) (acc : R) :
  counted self -> from_chunker doc ->
  foldM (fun score term =>
           doc_tf ← getitem doc "tf" ≫= as_dict;
           match doc_tf !! term with
           | Some tf => Ok (score + tf * _compute_idf self term)%R
           | None => Ok score
           end) acc query_tokens
  = Ok (acc + tfidf self query_tokens doc)%R.
Proof.
  intros Hc (g & n & document_id & ->).
  set (doc := indexed document_id (Str.join " " g) (new_chunk g n)).
  set (step := fun (score : R) (term : string) => _).
  assert (forall score term,
             step score term = Ok (score + TF doc term * IDF self term)%R) as Hstep.
  { intros score term. unfold step, doc.
    rewrite getitem_tf_indexed. cbn [mbind result_bind].
    rewrite lookup_compute_tf.
    destruct (decide (term ∈ _tokenize (Str.join " " g))) as [Hin|Hnot].
    - unfold TF. by rewrite chunk_tokens_indexed, (idf_agrees self term Hc).
    - rewrite (TF_absent _ term) by (by rewrite chunk_tokens_indexed).
      f_equal. lra. }
  clearbody step. revert acc.
  induction query_tokens as [|t q IH]; intros acc.
  - simpl. f_equal. unfold tfidf. simpl. lra.
  - cbn [foldM]. rewrite Hstep. cbn [mbind result_bind]. rewrite IH.
    f_equal. unfold tfidf, sum_R. cbn [map foldr]. lra.
Qed.

(** The score the code gives a stored chunk is the sum of the
    specification. *)
Lemma score_document_tfidf (self : SimpleVectorStore) (doc : chunk)
    (query_tokens : list string) :
  counted self -> from_chunker doc ->
  score_document self query_tokens doc = Ok (tfidf self query_tokens doc).
Proof.
  intros Hc Hdoc. unfold score_document.
  rewrite (score_loop_sum self doc query_tokens 0%R Hc Hdoc). f_equal. lra.
Qed.

Lemma score_documents_from (self : SimpleVectorStore) (query_tokens : list string)
    (docs : list chunk) (i : nat) :
  counted self -> Forall from_chunker docs ->
  score_documents self query_tokens i docs
  = Ok (imap (fun j doc => (tfidf self query_tokens doc, i + j)) docs).
Proof.
  intros Hc Hdocs. revert i.
  induction Hdocs as [|doc docs Hdoc _ IH]; intros i; [done|].
  cbn [score_documents]. rewrite (score_document_tfidf self doc _ Hc Hdoc).
  cbn [mbind result_bind]. rewrite IH. cbn [mbind result_bind imap].
  f_equal. rewrite Nat.add_0_r. f_equal.
  apply imap_ext. intros j d _. simpl. f_equal. lia.
Qed.

Lemma score_documents_scored (self : SimpleVectorStore) (query_tokens : list string) :
  counted self -> Forall from_chunker (documents self) ->
  score_documents self query_tokens 0 (documents self)
  = Ok (scored self query_tokens).
Proof. intros Hc Hdocs. by rewrite score_documents_from. Qed.

(** ** The stable sort *)

Lemma insert_desc_perm (x : R * nat) (l : list (R * nat)) :
  insert_desc x l ≡ₚ x :: l.
Proof.
  induction l as [|y l IH]; simpl; [done|].
  destruct (decide (x.1 < y.1)%R); [|done].
  rewrite IH. apply Permutation_swap.
Qed.

Lemma sort_desc_perm (l : list (R * nat)) : sort_desc l ≡ₚ l.
Proof.
  induction l as [|x l IH]; simpl; [done|].
  by rewrite insert_desc_perm, IH.
Qed.

Lemma ranks_before_later (x y z : R * nat) :
  ~ (x.1 < y.1)%R -> x.2 < z.2 -> ranks_before y z -> ranks_before x z.
Proof.
  unfold ranks_before. intros Hxy Hpos [Hlt | [Heq _]].
  - left. lra.
  - destruct (Rlt_dec y.1 x.1); [left; lra | right; split; [lra | done]].
Qed.

Lemma insert_desc_sorted (x : R * nat) (l : list (R * nat)) :
  StronglySorted ranks_before l ->
  Forall (by_position x) l ->
  StronglySorted ranks_before (insert_desc x l).
Proof.
  induction 1 as [|y l Hsorted IH Hy]; intros Hpos; simpl.
  - by repeat constructor.
  - apply Forall_cons in Hpos as [Hxy Hpos].
    destruct (decide (x.1 < y.1)%R) as [Hlt|Hge].
    + constructor; [by apply IH|].
      rewrite insert_desc_perm. constructor; [by left | done].
    + constructor; [by constructor|].
      constructor.
      * destruct (Rlt_dec y.1 x.1); [by left | right; split; [lra | done]].
      * apply Forall_forall. intros z Hz.
        apply (ranks_before_later x y z Hge).
        -- by apply (proj1 (Forall_forall _ _) Hpos).
        -- by apply (proj1 (Forall_forall _ _) Hy).
Qed.

(** Sorting entries that stand in the order of their positions gives
    the ranking order. *)
Lemma sort_desc_sorted (l : list (R * nat)) :
  StronglySorted by_position l -> StronglySorted ranks_before (sort_desc l).
Proof.
  induction 1 as [|x l _ IH Hx]; simpl; [constructor|].
  apply insert_desc_sorted; [done|]. by rewrite sort_desc_perm.
Qed.

Lemma StronglySorted_lookup {A} (Rel : relation A) (l : list A) i j x y :
  StronglySorted Rel l -> i < j -> l !! i = Some x -> l !! j = Some y -> Rel x y.
Proof.
  intros Hsorted. revert i j. induction Hsorted as [|z l _ IH Hz]; intros i j Hij Hi Hj.
  - done.
  - destruct j as [|j]; [lia|]. destruct i as [|i]; simpl in *.
    + injection Hi as <-. apply (proj1 (Forall_forall _ _) Hz).
      by eapply list_elem_of_lookup_2.
    + apply (IH i j); [lia | done | done].
Qed.

Lemma slice_to_take {A} (k : Z) (l : list A) :
  exists n, slice_to k l = take n l.
Proof. unfold slice_to. destruct (0 <=? k)%Z; eauto. Qed.

Lemma slice_to_lookup {A} (k : Z) (l : list A) i x :
  slice_to k l !! i = Some x -> l !! i = Some x.
Proof.
  destruct (slice_to_take k l) as [n ->]. intros H.
  by apply lookup_take_Some in H as [? _].
Qed.

Lemma scored_by_position (self : SimpleVectorStore) (query_terms : list string) :
  StronglySorted by_position (scored self query_terms).
Proof.
  unfold scored. generalize (documents self). intros docs.
  change (fun i doc => (tfidf self query_terms doc, i))
    with (fun i doc => (tfidf self query_terms doc, 0 + i)).
  generalize 0. induction docs as [|doc docs IH]; intros n; simpl; constructor.
  - rewrite (imap_ext _ (fun i d => (tfidf self query_terms d, S n + i))).
    + apply IH.
    + intros i d _. simpl. f_equal. lia.
  - apply Forall_lookup. intros i e. rewrite list_lookup_imap.
    destruct (docs !! i); [|done]. intros [= <-]. unfold by_position. simpl. lia.
Qed.

Lemma scored_lookup (self : SimpleVectorStore) (query_terms : list string) e :
  e ∈ scored self query_terms ->
  exists doc, documents self !! e.2 = Some doc /\ e.1 = tfidf self query_terms doc.
Proof.
  unfold scored. intros [i Hi]%list_elem_of_lookup_1.
  rewrite list_lookup_imap in Hi.
  destruct (documents self !! i) as [doc|] eqn:Hdoc; [|done].
  injection Hi as <-. by exists doc.
Qed.


Lemma slice_to_elem_of {A} (k : Z) (l : list A) x :
  x ∈ slice_to k l -> x ∈ l.
Proof.
  intros [i Hi]%list_elem_of_lookup_1.
  eapply list_elem_of_lookup_2, slice_to_lookup, Hi.
Qed.

(** The ranking of a query with terms: computed without error, it is
    the head of the sorted scores of the specification, and [search]
    returns the scored copy of each of its entries, in its order. *)
Lemma search_ranking (self : SimpleVectorStore) (query : string) (top_k : Z) :
  counted self -> Forall from_chunker (documents self) ->
  _tokenize query <> [] ->
  let top := slice_to top_k (sort_desc (scored self (_tokenize query))) in
  ranking self (_tokenize query) top_k = Ok top
  /\ exists results,
       search self query top_k = Ok results
       /\ Forall2 (returned_for self) top results.
Proof.
  intros Hc Hdocs Hq top.
  assert (ranking self (_tokenize query) top_k = Ok top) as Hrank.
  { unfold ranking. by rewrite score_documents_scored. }
  split; [done|].
  destruct (mapM_Forall2 (result_of self) (returned_for self) top) as (rs & Hrs & Hall).
  { apply Forall_forall. intros [score idx] He.
    apply slice_to_elem_of in He. rewrite sort_desc_perm in He.
    apply scored_lookup in He as (doc & Hdoc & _). simpl in Hdoc.
    exists (scored_copy doc score). split.
    - unfold result_of. by rewrite Hdoc.
    - by exists doc. }
  exists rs. split; [|done].
  unfold search. destruct (documents self) as [|d ds] eqn:Hd.
  - subst top. unfold scored in Hrs. rewrite Hd in Hrs. simpl in Hrs.
    destruct (slice_to_take top_k (@nil (R * nat))) as [n Hn].
    rewrite Hn, take_nil in Hrs. simpl in Hrs. done.
  - destruct (_tokenize query) as [|t q] eqn:Htok; [done|].
    rewrite Hrank. done.
Qed.

(** ** What [search] returns *)

Lemma lookup_text_from_chunker (doc : chunk) :
  from_chunker doc -> exists text, doc !! "text" = Some (PStr text).
Proof.
  intros (g & n & document_id & ->). exists (Str.join " " g).
  unfold indexed. rewrite !lookup_insert_ne by done. apply lookup_text_new_chunk.
Qed.

Lemma lookup_score_from_chunker (doc : chunk) :
  from_chunker doc -> doc !! "score" = None.
Proof.
  intros (g & n & document_id & ->). unfold indexed, new_chunk.
  by rewrite !lookup_insert_ne by done.
Qed.

Lemma dom_scored_copy (stored : chunk) (score : R) :
  from_chunker stored -> dom (scored_copy stored score) = result_fields.
Proof.
  intros (g & n & document_id & ->).
  unfold scored_copy, indexed, new_chunk, result_fields.
  rewrite !dom_delete_L, !dom_insert_L, dom_empty_L.
  apply set_eq. intros k.
  rewrite !elem_of_difference, !elem_of_union, !elem_of_singleton.
  split.
  - intros [[H Htok] Htf].
    destruct H as [-> | [-> | [-> | [-> | [-> | [-> | [-> | H]]]]]]];
      solve [done | auto 10 | by apply elem_of_empty in H].
  - intros [[[[-> | ->] | ->] | ->] | ->]; (split; [split|]); solve [done | auto 10].
Qed.

Lemma lookup_scored_copy (stored : chunk) (score : R) :
  scored_copy stored score !! "score" = Some (PNum score)
  /\ scored_copy stored score !! "tokens" = None
  /\ scored_copy stored score !! "tf" = None
  /\ scored_copy stored score !! "text" = stored !! "text".
Proof.
  unfold scored_copy. repeat split.
  - rewrite !lookup_delete_ne by done. by rewrite lookup_insert_eq.
  - rewrite lookup_delete_ne by done. by rewrite lookup_delete_eq.
  - by rewrite lookup_delete_eq.
  - rewrite !lookup_delete_ne by done. by rewrite lookup_insert_ne.
Qed.


Lemma texts_returned (docs : list chunk) :
  Forall (fun r => exists text, r !! "text" = Some (PStr text)) docs ->
  exists texts, mapM (fun doc => getitem doc "text" ≫= as_str) docs = Ok texts.
Proof.
  intros Hdocs.
  destruct (mapM_Forall2 (fun doc => getitem doc "text" ≫= as_str)
              (fun _ _ => True) docs) as (texts & Htexts & _); [|by exists texts].
  eapply Forall_impl; [exact Hdocs|]. intros r [text Hr].
  exists text. unfold getitem. by rewrite Hr.
Qed.

Lemma get_all_text_returns (self : SimpleVectorStore) :
  Forall from_chunker (documents self) -> exists text, get_all_text self = Ok text.
Proof.
  intros Hdocs. unfold get_all_text.
  destruct (texts_returned (documents self)) as [texts ->]; [|by eexists].
  eapply Forall_impl; [exact Hdocs|]. apply lookup_text_from_chunker.
Qed.


(** ** Inverse document frequency *)

Lemma idf_counted (self : SimpleVectorStore) (term : string) :
  counted self ->
  0 < containing term (documents self) ->
  _compute_idf self term
  = ln (INR (length (documents self)) / INR (containing term (documents self))).
Proof.
  intros [Htotal Hfreqs] Hk. unfold _compute_idf.
  pose proof (containing_le term (documents self)) as Hle.
  rewrite Hfreqs, Htotal.
  rewrite decide_False by lia. by rewrite decide_False by lia.
Qed.

Lemma ln_ratio_same (n : nat) : 0 < n -> ln (INR n / INR n) = 0%R.
Proof.
  intros Hn. apply lt_0_INR in Hn.
  replace (INR n / INR n)%R with 1%R by (field; lra). apply ln_1.
Qed.

Lemma ln_ratio_decreases (n k : nat) :
  0 < k -> k < n -> (ln (INR (S n) / INR (S k)) < ln (INR n / INR k))%R.
Proof.
  intros Hk Hkn. rewrite !S_INR.
  apply lt_0_INR in Hk. apply lt_INR in Hkn.
  assert (INR n / INR k - (INR n + 1) / (INR k + 1)
          = (INR n - INR k) / (INR k * (INR k + 1)))%R as Hdiff by (field; lra).
  assert (0 < (INR n - INR k) / (INR k * (INR k + 1)))%R as Hpos.
  { apply Rdiv_lt_0_compat; [lra|]. apply Rmult_lt_0_compat; lra. }
  apply ln_increasing; [|lra].
  apply Rdiv_lt_0_compat; lra.
Qed.

(** ** The service *)

Lemma search_zero (self : SimpleVectorStore) (query : string) :
  counted self -> Forall from_chunker (documents self) ->
  search self query 0 = Ok [].
Proof.
  intros Hc Hdocs. destruct (decide (_tokenize query = [])) as [Hq|Hq].
  - unfold search. rewrite Hq. by destruct (documents self).
  - destruct (search_ranking self query 0 Hc Hdocs Hq) as (_ & rs & -> & Hall).
    unfold slice_to in Hall. simpl in Hall. rewrite take_0 in Hall.
    by apply Forall2_nil_inv_l in Hall as ->.
Qed.

Lemma example_reachable : reachable plain_digest example_service.
Proof.
  apply (reachable_call plain_digest fresh_service
           (AddDocument example_text (Some "a.txt")) (RInt 2)).
  - by apply (reachable_init plain_digest 50 10).
  - vm_compute. reflexivity.
Qed.

Section ServiceClaims.

Variable md5_hexdigest : string -> string.

(** [add_document] returns for every service and every text; a text
    whose hash is recorded changes nothing. *)
Lemma add_document_returns (self : RAGSystem) text document_id :
  exists n self',
    add_document md5_hexdigest self text document_id = Ok (n, self')
    /\ md5_hexdigest text ∈ document_hashes self'
    /\ (md5_hexdigest text ∈ document_hashes self -> n = 0%Z /\ self' = self)
    /\ (md5_hexdigest text ∉ document_hashes self ->
        n = Z.of_nat (length (chunk_text (chunker self) text))
        /\ document_hashes self' = {[ md5_hexdigest text ]} ∪ document_hashes self
        /\ length (documents (vector_store self'))
           = length (documents (vector_store self))
             + length (chunk_text (chunker self) text)).
Proof.
  unfold add_document.
  destruct (decide (md5_hexdigest text ∈ document_hashes self)) as [Hin|Hnot].
  - exists 0%Z, self. by repeat split.
  - destruct (add_documents_made (chunk_text (chunker self) text)
                (vector_store self) document_id (chunk_text_made _ _))
      as (store & -> & Hlen & _).
    eexists _, _. split; [reflexivity|]. simpl. split; [set_solver|].
    split; [done|]. by intros _.
Qed.

Lemma add_document_seen (self : RAGSystem) text document_id :
  md5_hexdigest text ∈ document_hashes self ->
  add_document md5_hexdigest self text document_id = Ok (0%Z, self).
Proof. intros Hin. unfold add_document. by rewrite decide_True. Qed.



(** C5: for a query with at least one term, the results follow the
    ranking, in which an entry never has a lower score than a later one,
    and of two entries with equal scores the one stored earlier comes
    first. *)
Theorem search_order (self : RAGSystem) (query : string) (top_k : Z) :
  reachable md5_hexdigest self ->
  _tokenize query <> [] ->
  exists top results,
    ranking (vector_store self) (_tokenize query) top_k = Ok top
    /\ search (vector_store self) query top_k = Ok results
    /\ Forall2 (returned_for (vector_store self)) top results
    /\ forall p q x y,
         p < q -> top !! p = Some x -> top !! q = Some y ->
         (y.1 <= x.1)%R /\ (x.1 = y.1 -> x.2 < y.2).
Proof.
  intros [Hc Hdocs]%reachable_inv Hq.
  destruct (search_ranking (vector_store self) query top_k Hc Hdocs Hq)
    as (Hrank & rs & Hrs & Hall).
  eexists _, rs. split; [exact Hrank|]. split; [done|]. split; [done|].
  intros p q x y Hpq Hp%slice_to_lookup Hy%slice_to_lookup.
  pose proof (sort_desc_sorted _ (scored_by_position (vector_store self)
                                    (_tokenize query))) as Hsorted.
  destruct (StronglySorted_lookup _ _ p q x y Hsorted Hpq Hp Hy) as [Hlt | [Heq Hpos]].
  - split; [lra|]. intros Heq. lra.
  - split; [lra | done].
Qed.

(** C8: on a service in use, for every term the document frequency is
    the number of stored chunks whose tokens contain the term, and
    [total_docs] is the number of stored chunks. *)
Theorem counters_agree (self : RAGSystem) :
  reachable md5_hexdigest self ->
  (forall term,
     count_of (doc_freqs (vector_store self)) term
     = containing term (documents (vector_store self)))
  /\ total_docs (vector_store self) = length (documents (vector_store self)).
Proof. intros [[Htotal Hfreqs] _]%reachable_inv. by split. Qed.

(** C9: on an empty index [search] returns the empty list and
    [get_relevant_context] the empty string, for every query and every
    [top_k]. *)
Theorem empty_index (self : RAGSystem) (query : string) (top_k : Z) :
  documents (vector_store self) = [] ->
  search (vector_store self) query top_k = Ok []
  /\ get_relevant_context self query top_k = Ok "".
Proof.
  intros Hempty.
  assert (search (vector_store self) query top_k = Ok []) as Hsearch.
  { unfold search. by rewrite Hempty. }
  split; [done|].
  unfold get_relevant_context, get_all_text. rewrite Hsearch, Hempty. done.
Qed.

(** C6: adding the same text twice. The first call returns; the second
    returns 0 and leaves the whole service as the first call left it:
    chunks, document frequencies, counters and hashes. The first call
    changes nothing either when the hash was recorded before, and
    otherwise records one more hash and stores the chunks it counts. *)
Theorem add_document_twice (self : RAGSystem) (text : string)
    (document_id document_id' : option string) :
  exists n self1,
    add_document md5_hexdigest self text document_id = Ok (n, self1)
    /\ add_document md5_hexdigest self1 text document_id' = Ok (0%Z, self1)
    /\ (md5_hexdigest text ∈ document_hashes self -> n = 0%Z /\ self1 = self)
    /\ (md5_hexdigest text ∉ document_hashes self ->
        unique_documents (get_stats self1) = S (unique_documents (get_stats self))
        /\ Z.of_nat (total_chunks (get_stats self1))
           = (Z.of_nat (total_chunks (get_stats self)) + n)%Z).
Proof.
  destruct (add_document_returns self text document_id)
    as (n & self1 & Hfirst & Hin & Hseen & Hnew).
  exists n, self1. split; [done|]. split; [by apply add_document_seen|].
  split; [done|]. intros Hnot. destruct (Hnew Hnot) as (-> & Hhashes & Hlen).
  unfold get_stats. simpl. rewrite Hhashes, Hlen. split; [|lia].
  rewrite size_union by set_solver. by rewrite size_singleton.
Qed.

(** C10: a text not seen before that gives no chunk. [add_document]
    returns 0 and records the hash: [unique_documents] grows by one,
    the store and [total_chunks] stay as they are, and the same text is
    a duplicate from then on. *)
Theorem add_document_no_chunks (self : RAGSystem) (text : string)
    (document_id document_id' : option string) :
  md5_hexdigest text ∉ document_hashes self ->
  chunk_text (chunker self) text = [] ->
  exists self',
    add_document md5_hexdigest self text document_id = Ok (0%Z, self')
    /\ md5_hexdigest text ∈ document_hashes self'
    /\ vector_store self' = vector_store self
    /\ unique_documents (get_stats self') = S (unique_documents (get_stats self))
    /\ total_chunks (get_stats self') = total_chunks (get_stats self)
    /\ add_document md5_hexdigest self' text document_id' = Ok (0%Z, self').
Proof.
  intros Hnot Hnil.
  exists {| chunker := chunker self;
            vector_store := vector_store self;
            document_hashes := {[ md5_hexdigest text ]} ∪ document_hashes self |}.
  split.
  { unfold add_document. rewrite decide_False by done. by rewrite Hnil. }
  split; [set_solver|]. split; [done|]. split; [|split; [done|]].
  - unfold get_stats. simpl. rewrite size_union by set_solver.
    by rewrite size_singleton.
  - apply add_document_seen. set_solver.
Qed.

(** C7: for a term that is in [k > 0] of the [n] stored chunks the IDF
    the store computes is [ln (n / k)]. Adding one more chunk whose
    text has the term gives [ln ((n+1) / (k+1))], which is never more:
    it is less when [k < n], and both are 0 when the term is in every
    chunk. *)
Theorem idf_monotone (self : RAGSystem) (term : string) (c : chunk)
    (text : string) (document_id : option string) :
  reachable md5_hexdigest self ->
  let store := vector_store self in
  let n := length (documents store) in
  let k := containing term (documents store) in
  0 < k ->
  c !! "text" = Some (PStr text) ->
  term ∈ _tokenize text ->
  _compute_idf store term = ln (INR n / INR k)
  /\ exists store',
       add_documents store [c] document_id = Ok store'
       /\ length (documents store') = S n
       /\ containing term (documents store') = S k
       /\ _compute_idf store' term = ln (INR (S n) / INR (S k))
       /\ (_compute_idf store' term <= _compute_idf store term)%R
       /\ (k < n -> (_compute_idf store' term < _compute_idf store term)%R)
       /\ (k = n -> _compute_idf store term = 0%R
                    /\ _compute_idf store' term = 0%R).
Proof.
  intros [Hc _]%reachable_inv store n k Hk Htext Hterm.
  pose proof (idf_counted store term Hc Hk) as Hidf. fold n k in Hidf.
  split; [done|].
  pose proof (add_chunk_text document_id store c text Htext) as Hadd.
  set (store' := {| documents := _ |}) in Hadd.
  exists store'. unfold add_documents. cbn [foldM]. rewrite Hadd.
  split; [done|].
  assert (length (documents store') = S n) as Hn'.
  { unfold store'. simpl. rewrite length_app. simpl. unfold n. lia. }
  assert (containing term (documents store') = S k) as Hk'.
  { unfold store'. simpl. rewrite containing_app, containing_one.
    rewrite chunk_tokens_indexed, decide_True by done. unfold k. lia. }
  assert (counted store') as Hc' by (by eapply add_chunk_counted).
  pose proof (idf_counted store' term Hc') as Hidf'.
  rewrite Hn', Hk' in Hidf'. specialize (Hidf' ltac:(lia)).
  split; [done|]. split; [done|]. split; [done|].
  pose proof (containing_le term (documents store)) as Hle. fold n k in Hle.
  rewrite Hidf, Hidf'.
  assert (k = n -> ln (INR n / INR k) = 0%R /\ ln (INR (S n) / INR (S k)) = 0%R)
    as Hfull.
  { intros ->. split; apply ln_ratio_same; lia. }
  split; [|split; [|done]].
  - destruct (decide (k = n)) as [Heq|Hne].
    + destruct (Hfull Heq) as [-> ->]. lra.
    + left. apply ln_ratio_decreases; lia.
  - intros Hlt. apply ln_ratio_decreases; lia.
Qed.

(** C2 (as amended): on a non-empty index and with [top_k >= 1],
    [search] returns as many results as [top_k] and the index allow.
    For a query with terms each result is a copy of a stored chunk with
    exactly the fields text, char_count, chunk_id, document_id and
    score, the score a number, and without the tokens and the TF
    mapping. For a query without terms the results are the first
    [top_k] stored chunks in their order, and none has a score. *)
Theorem search_result_shape (self : RAGSystem) (query : string) (top_k : Z) :
  reachable md5_hexdigest self ->
  documents (vector_store self) <> [] ->
  (1 <= top_k)%Z ->
  let store := vector_store self in
  exists results,
    search store query top_k = Ok results
    /\ length results = Nat.min (Z.to_nat top_k) (length (documents store))
    /\ (_tokenize query <> [] ->
        Forall (fun r =>
                  dom r = result_fields
                  /\ exists stored score,
                       stored ∈ documents store
                       /\ r = scored_copy stored score
                       /\ r !! "score" = Some (PNum score)
                       /\ r !! "tokens" = None
                       /\ r !! "tf" = None) results)
    /\ (_tokenize query = [] ->
        results = take (Z.to_nat top_k) (documents store)
        /\ Forall (fun r => r !! "score" = None) results).
Proof.
  intros [Hc Hdocs]%reachable_inv Hne Hk store.
  assert (forall A (l : list A), slice_to top_k l = take (Z.to_nat top_k) l) as Hslice.
  { intros A l. unfold slice_to. by rewrite (proj2 (Z.leb_le 0 top_k)) by lia. }
  destruct (decide (_tokenize query = [])) as [Hq|Hq].
  - exists (take (Z.to_nat top_k) (documents store)).
    split; [|split; [|split; [done|]]].
    + unfold search. fold store. rewrite Hq, Hslice.
      destruct (documents store); [by rewrite take_nil | done].
    + by rewrite length_take.
    + intros _. split; [done|]. apply Forall_forall. intros r Hr.
      apply lookup_score_from_chunker.
      apply (proj1 (Forall_forall _ _) Hdocs).
      by eapply subseteq_take.
  - destruct (search_ranking store query top_k Hc Hdocs Hq) as (_ & rs & Hrs & Hall).
    exists rs. split; [done|]. split; [|split; [|done]].
    + rewrite <- (Forall2_length _ _ _ Hall), Hslice, length_take.
      rewrite (Permutation_length (sort_desc_perm _)).
      unfold scored. by rewrite length_imap.
    + intros _. apply Forall_forall. intros r Hr.
      apply list_elem_of_lookup_1 in Hr as [i Hi].
      destruct (Forall2_lookup_r _ _ _ _ _ Hall Hi) as (e & He & stored & Hstored & ->).
      assert (stored ∈ documents store) as Hin by (by eapply list_elem_of_lookup_2).
      split.
      * apply dom_scored_copy. by apply (proj1 (Forall_forall _ _) Hdocs).
      * exists stored, e.1. destruct (lookup_scored_copy stored e.1) as (? & ? & ? & _).
        done.
Qed.


End ServiceClaims.

(** ** The properties on the example service *)


Lemma search_order_witness :
  exists top results,
    ranking (vector_store example_service) (_tokenize "cat") 5 = Ok top
    /\ search (vector_store example_service) "cat" 5 = Ok results
    /\ Forall2 (returned_for (vector_store example_service)) top results
    /\ forall p q x y,
         p < q -> top !! p = Some x -> top !! q = Some y ->
         (y.1 <= x.1)%R /\ (x.1 = y.1 -> x.2 < y.2).
Proof.
  apply (search_order plain_digest example_service "cat" 5 example_reachable).
  vm_compute. discriminate.
Defined.

Lemma counters_agree_witness :
  count_of (doc_freqs (vector_store example_service)) "the" = 2
  /\ containing "the" (documents (vector_store example_service)) = 2
  /\ total_docs (vector_store example_service) = 2.
Proof.
  destruct (counters_agree plain_digest example_service example_reachable)
    as [Hfreqs Htotal].
  split; [|split].
  - rewrite Hfreqs. vm_compute. reflexivity.
  - vm_compute. reflexivity.
  - rewrite Htotal. vm_compute. reflexivity.
Defined.

Lemma empty_index_witness :
  search (vector_store fresh_service) "anything" 5 = Ok []
  /\ get_relevant_context fresh_service "anything" 5 = Ok "".
Proof. apply (empty_index fresh_service "anything" 5). reflexivity. Defined.

Lemma add_document_no_chunks_witness :
  exists self',
    add_document plain_digest example_service "   " None = Ok (0%Z, self')
    /\ unique_documents (get_stats self') = 2
    /\ total_chunks (get_stats self') = 2
    /\ add_document plain_digest self' "   " (Some "b.txt") = Ok (0%Z, self').
Proof.
  destruct (add_document_no_chunks plain_digest example_service "   "
              None (Some "b.txt"))
    as (self' & Hadd & _ & _ & Hunique & Htotal & Hagain).
  - vm_compute. intros H. discriminate H.
  - vm_compute. reflexivity.
  - exists self'. split; [done|]. split; [|split; [|done]].
    + rewrite Hunique. vm_compute. reflexivity.
    + rewrite Htotal. vm_compute. reflexivity.
Defined.

Lemma idf_monotone_witness :
  let store := vector_store example_service in
  _compute_idf store "cat" = ln (INR 2 / INR 1)
  /\ exists store',
       add_documents store [new_chunk ["A cat."] 0] None = Ok store'
       /\ (_compute_idf store' "cat" < _compute_idf store "cat")%R.
Proof.
  intros store.
  destruct (idf_monotone plain_digest example_service "cat"
              (new_chunk ["A cat."] 0) "A cat." None example_reachable)
    as (Hidf & store' & Hadd & _ & _ & _ & _ & Hlt & _).
  - vm_compute. lia.
  - reflexivity.
  - vm_compute. apply list_elem_of_here.
  - split; [exact Hidf|]. exists store'. split; [exact Hadd|].
    apply Hlt. vm_compute. lia.
Defined.

Lemma search_result_shape_witness :
  exists results,
    search (vector_store example_service) "cat" 1 = Ok results
    /\ length results = 1
    /\ Forall (fun r => dom r = result_fields) results.
Proof.
  destruct (search_result_shape plain_digest example_service "cat" 1
              example_reachable)
    as (results & Hsearch & Hlen & Hterms & _).
  - vm_compute. discriminate.
  - lia.
  - exists results. split; [done|]. split; [exact Hlen|].
    eapply Forall_impl; [apply Hterms; vm_compute; discriminate|].
    by intros r [Hdom _].
Defined.


(** C2 (as stated) fails for a query without terms: the service holds
    two chunks, the query has only short words, and the result is the
    first stored dictionary, with its tokens and TF mapping and without
    a score. *)
Lemma search_without_terms_unstripped :
  documents (vector_store example_service) <> []
  /\ _tokenize "is it" = []
  /\ exists r,
       search (vector_store example_service) "is it" 1 = Ok [r]
       /\ r !! "text" = Some (PStr "The cat sat.")
       /\ r !! "score" = None
       /\ r !! "tokens" = Some (PList ["the"; "cat"; "sat"])
       /\ is_Some (r !! "tf").
Proof.
  split; [vm_compute; discriminate|]. split; [reflexivity|].
  eexists. split; [vm_compute; reflexivity|].
  split; [reflexivity|]. split; [reflexivity|]. split; [reflexivity|].
  vm_compute. eauto.
Qed.


(** ** More on the chunker *)

Lemma last_group_snoc (groups : list (list string)) (g : list string) :
  last_group (groups ++ [g]) = g.
Proof. unfold last_group. by rewrite last_snoc. Qed.

Lemma default_last_cons {A} (prev h : A) (l : list A) :
  default prev (last (h :: l)) = default h (last l).
Proof.
  revert prev h. induction l as [|x l IH]; intros prev h; [done|].
  rewrite last_cons_cons. by rewrite (IH prev x), (IH h x).
Qed.

Lemma fresh_sentences_snoc (self : TextChunker) (groups : list (list string))
    (prev g : list string) :
  fresh_sentences self prev (groups ++ [g])
  = (fresh_sentences self prev groups
     ++ drop (length (_get_overlap_sentences self (default prev (last groups)))) g)%list.
Proof.
  revert prev. induction groups as [|h groups IH]; intros prev; simpl.
  - by rewrite app_nil_r.
  - rewrite IH, <- app_assoc. by rewrite default_last_cons.
Qed.

Lemma all_within_size_snoc (self : TextChunker) (groups : list (list string))
    (prev g : list string) :
  all_within_size self prev groups ->
  within_size self (default prev (last groups)) g ->
  all_within_size self prev (groups ++ [g]).
Proof.
  revert prev. induction groups as [|h groups IH]; intros prev; simpl.
  - by intros _ ?.
  - intros [Hh Hrest] Hg. split; [done|]. apply IH; [done|].
    by rewrite default_last_cons in Hg.
Qed.

Lemma overlap_nil (self : TextChunker) : _get_overlap_sentences self [] = [].
Proof. done. Qed.

Lemma open_empty_no_groups (self : TextChunker) groups st :
  chunking_inv self groups st -> current_chunk st = [] -> groups = [].
Proof.
  intros [_ Ho _] Hcur. destruct (last groups) as [g|] eqn:Hlast.
  - destruct (carries_nonempty self g). rewrite <- Hcur. by apply Ho.
  - by apply last_None.
Qed.

Lemma coverage_step (self : TextChunker) seen groups st sentence :
  coverage_inv self seen groups st ->
  coverage_inv self (seen ++ [sentence])
    (group_step self (groups, st) sentence).1
    (group_step self (groups, st) sentence).2.
Proof.
  intros [Hbase Hlen Hne (rest & Hcur & Hseen) [Hsub Hsubc] Hclosed Hopen].
  assert (Forall (fun g => g ⊆ (seen ++ [sentence])%list) groups) as Hsub'.
  { eapply Forall_impl; [exact Hsub|]. intros g Hg x Hx.
    apply elem_of_app. left. by apply Hg. }
  pose proof (group_step_inv self groups st sentence Hbase) as Hbase'.
  pose proof (open_empty_no_groups self groups st Hbase) as Hnil.
  unfold group_step, chunk_step in *. cbn [fst snd] in *.
  destruct (current_length st + Str.len sentence <=? chunk_size self)%Z eqn:Hfit;
    cbn [fst snd chunks current_chunk current_length] in *.
  - split; cbn [chunks current_chunk current_length].
    + done.
    + rewrite sum_len_app, length_app. simpl. lia.
    + done.
    + exists (rest ++ [sentence])%list. rewrite Hcur, <- Hseen.
      by rewrite <- !app_assoc.
    + split; [done|]. intros x [Hx|Hx]%elem_of_app; apply elem_of_app;
        [left; by apply Hsubc | by right].
    + done.
    + right. left. apply Z.leb_le in Hfit.
      rewrite len_join_space, sum_len_app, length_app. simpl. lia.
  - assert (flush_groups groups st
            = match current_chunk st with [] => groups
              | _ => (groups ++ [current_chunk st])%list end) as Hflush.
    { unfold flush_groups. by destruct (current_chunk st). }
    rewrite Hflush in *. clear Hflush.
    destruct (current_chunk st) as [|s c] eqn:Hc.
    + specialize (Hnil eq_refl). subst groups.
      symmetry in Hcur. apply app_eq_nil in Hcur as [_ ->].
      simpl in Hseen. subst seen.
      split; cbn [chunks current_chunk current_length].
      * done.
      * done.
      * done.
      * exists [sentence]. by rewrite overlap_nil.
      * split; [done|]. by rewrite overlap_nil.
      * done.
      * right. right. exists sentence. by rewrite overlap_nil.
    + split; cbn [chunks current_chunk current_length].
      * done.
      * done.
      * apply Forall_app. split; [done|]. by repeat constructor.
      * exists [sentence]. rewrite last_group_snoc. split; [done|].
        rewrite fresh_sentences_snoc. fold (last_group groups).
        by rewrite Hcur, drop_app_length, Hseen.
      * split.
        -- apply Forall_app. split; [done|]. constructor; [|done].
           intros x Hx. apply elem_of_app. left. by apply Hsubc.
        -- intros x [Hx|Hx]%elem_of_app; apply elem_of_app; [left|by right].
           apply Hsubc. destruct (overlap_suffix self (s :: c)) as [front Hfront].
           rewrite Hfront. apply elem_of_app. by right.
      * apply all_within_size_snoc; [done|].
        fold (last_group groups). destruct Hopen as [?|?]; done.
      * right. right. exists sentence. by rewrite last_group_snoc.
Qed.

Lemma coverage_foldl (self : TextChunker) sentences seen groups st :
  coverage_inv self seen groups st ->
  coverage_inv self (seen ++ sentences)
    (foldl (group_step self) (groups, st) sentences).1
    (foldl (group_step self) (groups, st) sentences).2.
Proof.
  revert seen groups st. induction sentences as [|s l IH]; intros seen groups st Hinv.
  - by rewrite app_nil_r.
  - simpl. pose proof (coverage_step self seen groups st s Hinv) as H.
    destruct (group_step self (groups, st) s) as [groups' st'].
    rewrite (cons_middle s seen l), app_assoc. by apply IH.
Qed.

Lemma coverage_initial (self : TextChunker) :
  coverage_inv self [] [] initial_chunking.
Proof.
  split; [apply initial_inv | done | done | by exists [] | by split | done | by left].
Qed.

(** The groups of a text: none is empty, their fresh sentences are the
    sentences of the text, they hold no other sentence, and each
    respects the size or is a fresh start with one new sentence. *)
Lemma sentence_groups_coverage (self : TextChunker) (text : string) :
  Forall (fun g => g <> []) (sentence_groups self text)
  /\ fresh_sentences self [] (sentence_groups self text) = sentences_of text
  /\ Forall (fun g => g ⊆ sentences_of text) (sentence_groups self text)
  /\ all_within_size self [] (sentence_groups self text).
Proof.
  unfold sentence_groups, sentences_of.
  destruct (decide (text = "" \/ Str.strip text = "")) as [Hblank|_].
  - split; [done|]. split; [|done].
    assert (Str.strip text = "") as -> by (by destruct Hblank as [->|?]).
    done.
  - pose proof (coverage_foldl self (_split_into_sentences (Str.strip text))
                  [] [] initial_chunking (coverage_initial self)) as Hinv.
    destruct (foldl (group_step self) ([], initial_chunking)
                (_split_into_sentences (Str.strip text))) as [groups st].
    destruct Hinv as [Hbase _ Hne (rest & Hcur & Hseen) [Hsub Hsubc] Hclosed Hopen].
    cbn [fst snd] in *. unfold flush_groups.
    destruct (current_chunk st) as [|s c] eqn:Hc.
    + symmetry in Hcur. apply app_eq_nil in Hcur as [_ ->].
      by rewrite app_nil_r in Hseen.
    + split; [|split; [|split]].
      * apply Forall_app. split; [done|]. by repeat constructor.
      * rewrite fresh_sentences_snoc. fold (last_group groups).
        by rewrite Hcur, drop_app_length.
      * apply Forall_app. split; [done|]. by repeat constructor.
      * apply all_within_size_snoc; [done|]. fold (last_group groups).
        destruct Hopen as [?|?]; done.
Qed.

(** ** White space at the ends *)

Lemma chars_of_chars (l : list ascii) : Str.chars (Str.of_chars l) = l.
Proof. apply list_ascii_of_string_of_list_ascii. Qed.

Lemma of_chars_chars (s : string) : Str.of_chars (Str.chars s) = s.
Proof. apply string_of_list_ascii_of_string. Qed.

Lemma lstrip_starts_solid (l : list ascii) : starts_solid (Str.lstrip_chars l).
Proof.
  induction l as [|c l IH]; simpl; [done|].
  destruct (Char.isspace c) eqn:Hc; [done | exact Hc].
Qed.

Lemma lstrip_solid (l : list ascii) : starts_solid l -> Str.lstrip_chars l = l.
Proof. destruct l as [|c l]; simpl; [done|]. by intros ->. Qed.

Lemma lstrip_app_solid (a b : list ascii) (c : ascii) :
  Char.isspace c = false ->
  Str.lstrip_chars (a ++ c :: b) = (Str.lstrip_chars a ++ c :: b)%list.
Proof.
  intros Hc. induction a as [|x a IH]; simpl; [by rewrite Hc|].
  by destruct (Char.isspace x).
Qed.

Lemma lstrip_nil_iff (l : list ascii) :
  Str.lstrip_chars l = [] <-> Forall (fun c => Char.isspace c = true) l.
Proof.
  induction l as [|c l IH]; simpl; [done|].
  destruct (Char.isspace c) eqn:Hc.
  - rewrite IH. split; [by constructor | by intros [_ ?]%Forall_cons].
  - split; [done|]. intros [Hc' _]%Forall_cons. congruence.
Qed.

Lemma chars_strip (s : string) :
  Str.chars (Str.strip s)
  = rev (Str.lstrip_chars (rev (Str.lstrip_chars (Str.chars s)))).
Proof. unfold Str.strip. apply chars_of_chars. Qed.

(** What [strip] leaves of text that starts with a solid character
    starts with that character. *)
Lemma strip_chars_solid (c : ascii) (q : list ascii) :
  Char.isspace c = false ->
  exists q', rev (Str.lstrip_chars (rev (c :: q))) = c :: q'.
Proof.
  intros Hc. simpl. rewrite lstrip_app_solid by done.
  rewrite rev_app_distr. simpl. by eexists.
Qed.

Lemma strip_starts_solid (s : string) : starts_solid (Str.chars (Str.strip s)).
Proof.
  rewrite chars_strip.
  pose proof (lstrip_starts_solid (Str.chars s)) as Hm.
  destruct (Str.lstrip_chars (Str.chars s)) as [|c q]; [done|].
  destruct (strip_chars_solid c q Hm) as [q' ->]. exact Hm.
Qed.

Lemma strip_ends_solid (s : string) : starts_solid (rev (Str.chars (Str.strip s))).
Proof. rewrite chars_strip, rev_involutive. apply lstrip_starts_solid. Qed.

(** [strip] changes nothing the second time. *)
Lemma strip_strip (s : string) : Str.strip (Str.strip s) = Str.strip s.
Proof.
  unfold Str.strip at 1.
  rewrite (lstrip_solid _ (strip_starts_solid s)).
  rewrite (lstrip_solid _ (strip_ends_solid s)).
  by rewrite rev_involutive, of_chars_chars.
Qed.

Lemma of_chars_nil_iff (l : list ascii) : Str.of_chars l = "" <-> l = [].
Proof.
  split; [|by intros ->]. intros H.
  rewrite <- (chars_of_chars l), H. done.
Qed.

(** [strip] leaves nothing exactly of text that is white space only. *)
Lemma strip_empty_iff (s : string) :
  Str.strip s = "" <-> Forall (fun c => Char.isspace c = true) (Str.chars s).
Proof.
  rewrite <- lstrip_nil_iff. unfold Str.strip. rewrite of_chars_nil_iff.
  pose proof (lstrip_starts_solid (Str.chars s)) as Hm.
  destruct (Str.lstrip_chars (Str.chars s)) as [|c q]; [done|].
  destruct (strip_chars_solid c q Hm) as [q' ->]. done.
Qed.

Lemma strip_solid_nonempty (c : ascii) (q : list ascii) :
  Char.isspace c = false -> Str.strip (Str.of_chars (c :: q)) <> "".
Proof.
  intros Hc. rewrite strip_empty_iff, chars_of_chars.
  intros [Hc' _]%Forall_cons. congruence.
Qed.

(** ** Sentences *)

Lemma split_scan_head (after : bool) (cur l : list ascii) :
  exists p rest,
    Re.split_scan false after cur l = Str.of_chars (rev cur ++ p) :: rest.
Proof.
  revert after cur. induction l as [|c l IH]; intros after cur; simpl.
  - exists [], []. by rewrite app_nil_r.
  - destruct (Char.isspace c && after).
    + exists [], (Re.split_scan true false [] l). by rewrite app_nil_r.
    + destruct (IH (Char.is_terminal c) (c :: cur)) as (p & rest & ->).
      exists (c :: p), rest. simpl. by rewrite <- app_assoc.
Qed.

(** Text that is not blank has a sentence. *)
Lemma sentences_of_nonblank (text : string) :
  Str.strip text <> "" -> sentences_of text <> [].
Proof.
  intros Hne. unfold sentences_of, _split_into_sentences, Re.split_sentences.
  pose proof (strip_starts_solid text) as Hsolid.
  destruct (Str.chars (Str.strip text)) as [|c q] eqn:Hchars.
  - destruct Hne. by rewrite <- (of_chars_chars (Str.strip text)), Hchars.
  - simpl in Hsolid. simpl. rewrite Hsolid. simpl.
    destruct (split_scan_head (Char.is_terminal c) [c] q) as (p & rest & ->).
    simpl. rewrite filter_cons_True by (by apply strip_solid_nonempty). done.
Qed.

Lemma sentences_of_blank (text : string) :
  Str.strip text = "" -> sentences_of text = [].
Proof. unfold sentences_of. by intros ->. Qed.

(** Every sentence is trimmed and not empty. *)
Lemma sentences_trimmed (text : string) :
  Forall (fun s => s <> "" /\ Str.strip s = s) (_split_into_sentences text).
Proof.
  unfold _split_into_sentences. apply Forall_forall. intros s Hs.
  apply list_elem_of_fmap in Hs as (p & -> & Hp).
  apply list_elem_of_filter in Hp as [Hp _].
  split; [done | apply strip_strip].
Qed.

(** ** What the chunker returns *)

Lemma fresh_sentences_in (self : TextChunker) (groups : list (list string))
    (prev : list string) (s : string) :
  s ∈ fresh_sentences self prev groups ->
  exists i g, groups !! i = Some g /\ s ∈ g.
Proof.
  revert prev. induction groups as [|g groups IH]; intros prev; simpl.
  - by intros ?%elem_of_nil.
  - intros [Hs|Hs]%elem_of_app.
    + exists 0, g. split; [done|]. eapply subseteq_drop, Hs.
    + destruct (IH g Hs) as (i & g' & Hi & Hg'). by exists (S i), g'.
Qed.

Lemma all_within_size_lookup (self : TextChunker) (groups : list (list string))
    (prev : list string) (i : nat) (g : list string) :
  all_within_size self prev groups ->
  groups !! i = Some g ->
  within_size self (match i with 0 => prev | S j => default prev (groups !! j) end) g.
Proof.
  revert prev i. induction groups as [|h groups IH]; intros prev i; [done|].
  simpl. intros [Hh Hrest] Hi. destruct i as [|i]; simpl in *.
  - by injection Hi as <-.
  - specialize (IH h i Hrest Hi). destruct i as [|i]; [done|].
    simpl. destruct (groups !! i) eqn:Hprev; [done|].
    apply lookup_ge_None in Hprev. apply lookup_lt_Some in Hi. lia.
Qed.

Lemma join_nonempty (sep : string) (parts : list string) :
  parts <> [] -> Forall (fun s => s <> "") parts -> Str.join sep parts <> "".
Proof.
  destruct parts as [|[|c p] ps]; [done| |].
  - by intros _ [? _]%Forall_cons.
  - intros _ _. by destruct ps.
Qed.

Lemma sentences_of_nonempty (text : string) :
  Forall (fun s => s <> "") (sentences_of text).
Proof.
  eapply Forall_impl; [apply sentences_trimmed|]. by intros s [? _].
Qed.

Lemma sum_len_ge_length (l : list string) :
  Forall (fun s => s <> "") l -> (Z.of_nat (length l) <= sum_len l)%Z.
Proof.
  induction 1 as [|s l Hs _ IH]; simpl; [done|].
  assert (1 <= Str.len s)%Z; [|lia].
  unfold Str.len. destruct s; [done|]. simpl. lia.
Qed.

Lemma dom_new_chunk (g : list string) (n : nat) : dom (new_chunk g n) = chunk_fields.
Proof.
  unfold new_chunk, chunk_fields. rewrite !dom_insert_L, dom_empty_L. set_solver.
Qed.

Lemma chunk_text_nil_iff (self : TextChunker) (text : string) :
  chunk_text self text = [] <-> Str.strip text = "".
Proof.
  destruct (sentence_groups_coverage self text) as (_ & Hfresh & _).
  rewrite chunk_text_groups. split.
  - intros Hnil. destruct (decide (Str.strip text = "")) as [|Hne]; [done|].
    destruct (sentences_of_nonblank text Hne).
    rewrite <- Hfresh.
    destruct (sentence_groups self text); [done | discriminate Hnil].
  - intros Hblank. unfold sentence_groups.
    by rewrite decide_True by (by right).
Qed.

(** X1. No sentence is lost and none is invented: the sentences of the
    chunks, without the ones each chunk carries over from the chunk
    before it, are the sentences of the text in their order; so every
    sentence of the text is in some chunk, and every sentence of a chunk
    is a sentence of the text. *)
Theorem chunk_coverage (self : TextChunker) (text : string) :
  let groups := sentence_groups self text in
  chunk_text self text = imap (fun i g => new_chunk g i) groups
  /\ fresh_sentences self [] groups = sentences_of text
  /\ (forall s, s ∈ sentences_of text ->
        exists i g, groups !! i = Some g /\ s ∈ g
                    /\ chunk_text self text !! i = Some (new_chunk g i))
  /\ (forall i g s, groups !! i = Some g -> s ∈ g -> s ∈ sentences_of text).
Proof.
  intros groups. subst groups.
  destruct (sentence_groups_coverage self text) as (_ & Hfresh & Hsub & _).
  split; [apply chunk_text_groups|]. split; [done|]. split.
  - intros s Hs. rewrite <- Hfresh in Hs.
    destruct (fresh_sentences_in self _ _ s Hs) as (i & g & Hi & Hg).
    exists i, g. split; [done|]. split; [done|].
    rewrite chunk_text_groups, list_lookup_imap. by rewrite Hi.
  - intros i g s Hi Hs.
    apply (proj1 (Forall_lookup _ _) Hsub i g Hi s Hs).
Qed.

(** X2. [chunk_text] returns no chunk exactly for text that is empty or
    white space only. *)
Theorem chunk_text_empty_iff (self : TextChunker) (text : string) :
  chunk_text self text = []
  <-> Forall (fun c => Char.isspace c = true) (Str.chars text).
Proof. rewrite <- strip_empty_iff. apply chunk_text_nil_iff. Qed.

(** X3. The chunk at position [i] holds at least one sentence; its text
    is these sentences joined by single spaces, is trimmed and not
    empty; its char_count is the length of the text, its chunk_id is
    [i], and it has no other field. *)
Theorem chunk_text_fields (self : TextChunker) (text : string) (i : nat)
    (c : chunk) :
  chunk_text self text !! i = Some c ->
  exists g,
    sentence_groups self text !! i = Some g
    /\ g <> []
    /\ c !! "text" = Some (PStr (Str.join " " g))
    /\ Str.join " " g <> ""
    /\ c !! "char_count" = Some (PInt (Str.len (Str.join " " g)))
    /\ c !! "chunk_id" = Some (PInt (Z.of_nat i))
    /\ dom c = chunk_fields.
Proof.
  rewrite chunk_text_groups, list_lookup_imap.
  destruct (sentence_groups self text !! i) as [g|] eqn:Hi; [|done].
  intros [= <-]. exists g.
  destruct (sentence_groups_coverage self text) as (Hne & _ & Hsub & _).
  pose proof (proj1 (Forall_lookup _ _) Hne i g Hi) as Hg.
  split; [done|]. split; [done|]. split; [apply lookup_text_new_chunk|].
  split; [|split; [|split]].
  - apply join_nonempty; [done|]. apply Forall_forall. intros s Hs.
    apply (proj1 (Forall_forall _ _) (sentences_of_nonempty text)).
    apply (proj1 (Forall_lookup _ _) Hsub i g Hi s Hs).
  - unfold new_chunk. rewrite lookup_insert_ne by done. by rewrite lookup_insert_eq.
  - unfold new_chunk. rewrite !lookup_insert_ne by done. by rewrite lookup_insert_eq.
  - apply dom_new_chunk.
Qed.

(** X4. [chunk_size] is a soft bound: a chunk whose text is longer than
    [chunk_size] consists of the sentences carried over from the chunk
    before it and exactly one new sentence. *)
Theorem chunk_size_soft (self : TextChunker) (text : string) (i : nat)
    (g : list string) :
  sentence_groups self text !! i = Some g ->
  (chunk_size self < Str.len (Str.join " " g))%Z ->
  exists sentence,
    g = (_get_overlap_sentences self
           (group_before (sentence_groups self text) i) ++ [sentence])%list.
Proof.
  intros Hi Hlong.
  destruct (sentence_groups_coverage self text) as (_ & _ & _ & Hsize).
  destruct (all_within_size_lookup self _ [] i g Hsize Hi) as [Hfits|Hfresh].
  - lia.
  - by destruct i.
Qed.

(** X5. [chunk_size] is kept when the sentences are short: with
    [chunk_overlap >= 0], if every sentence of the text together with
    twice [chunk_overlap] fits in [chunk_size], then no chunk has more
    than [chunk_size] characters. *)
Theorem chunk_size_kept (self : TextChunker) (text : string) (i : nat)
    (c : chunk) :
  (0 <= chunk_overlap self)%Z ->
  Forall (fun s => (Str.len s + 2 * chunk_overlap self <= chunk_size self)%Z)
    (sentences_of text) ->
  chunk_text self text !! i = Some c ->
  exists n, c !! "char_count" = Some (PInt n) /\ (n <= chunk_size self)%Z.
Proof.
  intros Hco Hshort. rewrite chunk_text_groups, list_lookup_imap.
  destruct (sentence_groups self text !! i) as [g|] eqn:Hi; [|done].
  intros [= <-]. exists (Str.len (Str.join " " g)). split.
  { unfold new_chunk. rewrite lookup_insert_ne by done. by rewrite lookup_insert_eq. }
  destruct (sentence_groups_coverage self text) as (_ & _ & Hsub & Hsize).
  destruct (all_within_size_lookup self _ [] i g Hsize Hi) as [Hfits|[s Hg]];
    [done|].
  set (prev := match i with 0 => [] | S j => default [] (sentence_groups self text !! j) end) in Hg.
  set (carried := _get_overlap_sentences self prev) in Hg.
  assert (s ∈ sentences_of text) as Hs.
  { apply (proj1 (Forall_lookup _ _) Hsub i g Hi). rewrite Hg.
    apply elem_of_app. right. apply list_elem_of_here. }
  assert (Forall (fun x => x <> "") carried) as Hsolid.
  { apply Forall_forall. intros x Hx.
    apply (proj1 (Forall_forall _ _) (sentences_of_nonempty text)).
    apply (proj1 (Forall_lookup _ _) Hsub i g Hi). rewrite Hg.
    apply elem_of_app. by left. }
  pose proof (sum_len_ge_length carried Hsolid) as Hcount.
  pose proof (overlap_sum_len self prev Hco) as Hsum. fold carried in Hsum.
  pose proof (proj1 (Forall_forall _ _) Hshort s Hs) as Hlen. cbv beta in Hlen.
  rewrite len_join_space, Hg, sum_len_app, length_app. simpl.
  clear -Hcount Hsum Hlen. lia.
Qed.

(** ** Tokens *)

Lemma lower_lower (c : ascii) : Char.lower (Char.lower c) = Char.lower c.
Proof. destruct c as [[] [] [] [] [] [] [] []]; reflexivity. Qed.

Lemma token_class_solid (c : ascii) :
  Char.in_token_class c = true -> Char.isspace c = false.
Proof. destruct c as [[] [] [] [] [] [] [] []]; done. Qed.

Lemma str_lower_lower (s : string) : Str.lower (Str.lower s) = Str.lower s.
Proof.
  unfold Str.lower. rewrite chars_of_chars. f_equal.
  rewrite map_map. apply map_ext. intros c. apply lower_lower.
Qed.

Lemma class_run_spec (prev_word : bool) (l p : list ascii) :
  Re.class_run prev_word l = Some p ->
  Forall (fun c => Char.in_token_class c = true) p /\ p `prefix_of` l.
Proof.
  revert prev_word p. induction l as [|c l IH]; intros prev_word p; simpl.
  - destruct prev_word; [|done]. intros [= <-]. split; [done | by exists []].
  - assert ((if xorb prev_word (Char.isword c) then Some [] else None) = Some p ->
            Forall (fun c => Char.in_token_class c = true) p
            /\ p `prefix_of` c :: l) as Hhere.
    { destruct (xorb prev_word (Char.isword c)); [|done].
      intros [= <-]. split; [done | by eexists]. }
    destruct (Char.in_token_class c) eqn:Hc; [|done].
    destruct (Re.class_run (Char.isword c) l) as [q|] eqn:Hq; [|done].
    intros [= <-]. destruct (IH _ _ Hq) as [Hall Hpre].
    split; [by constructor | by apply prefix_cons].
Qed.

Lemma findall_scan_spec (skip : nat) (prev_word : bool) (l : list ascii) :
  Forall (fun w => Forall (fun c => Char.in_token_class c = true /\ c ∈ l)
                     (Str.chars w))
    (Re.findall_scan skip prev_word l).
Proof.
  revert skip prev_word.
  induction l as [|c l IH]; intros skip prev_word; cbn [Re.findall_scan];
    [done|].
  assert (forall k pw,
             Forall (fun w => Forall (fun x => Char.in_token_class x = true
                                               /\ x ∈ c :: l) (Str.chars w))
               (Re.findall_scan k pw l)) as Hrest.
  { intros k pw. eapply Forall_impl; [apply IH|]. intros w Hw.
    eapply Forall_impl; [exact Hw|]. intros x [? ?]. split; [done|].
    by apply list_elem_of_further. }
  destruct skip as [|k]; [|apply Hrest].
  destruct (Char.in_token_class c && xorb prev_word (Char.isword c)) eqn:Hstart;
    [|apply Hrest].
  destruct (Re.class_run (Char.isword c) l) as [p|] eqn:Hp; [|apply Hrest].
  constructor; [|apply Hrest].
  apply andb_true_iff in Hstart as [Hc _].
  destruct (class_run_spec _ _ _ Hp) as [Hall [rest ->]].
  rewrite chars_of_chars. constructor.
  - split; [done | apply list_elem_of_here].
  - apply Forall_forall. intros x Hx. split.
    + by apply (proj1 (Forall_forall _ _) Hall).
    + apply list_elem_of_further, elem_of_app. by left.
Qed.

(** X6. Every token is longer than two characters, is in lower case,
    and consists of characters of the token class only, so it holds no
    white space. *)
Theorem tokens_wellformed (text : string) :
  Forall (fun w =>
            2 < String.length w
            /\ Str.lower w = w
            /\ Forall (fun c => Char.in_token_class c = true
                                /\ Char.isspace c = false) (Str.chars w))
    (_tokenize text).
Proof.
  unfold _tokenize, Re.findall_words. apply Forall_forall. intros w Hw.
  apply list_elem_of_filter in Hw as [Hlen Hw].
  pose proof (proj1 (Forall_forall _ _)
                (findall_scan_spec 0 false (Str.chars (Str.lower text))) w Hw) as Hchars.
  split; [done|]. split.
  - unfold Str.lower at 1. rewrite <- (of_chars_chars w) at 2. f_equal.
    rewrite <- (map_id (Str.chars w)) at 2. apply map_ext_in.
    intros c Hc%list_elem_of_In.
    destruct (proj1 (Forall_forall _ _) Hchars c Hc) as [_ Hin].
    unfold Str.lower in Hin. rewrite chars_of_chars in Hin.
    apply list_elem_of_In, in_map_iff in Hin as (c' & <- & _).
    apply lower_lower.
  - eapply Forall_impl; [exact Hchars|]. intros c [Hc _].
    split; [done | by apply token_class_solid].
Qed.

(** X7. Letter case does not matter to a search: the tokens of a text
    in lower case are the tokens of the text, and a query in lower case
    gets the results of the query. *)
Theorem search_ignores_case (self : SimpleVectorStore) (query : string)
    (top_k : Z) :
  _tokenize (Str.lower query) = _tokenize query
  /\ search self (Str.lower query) top_k = search self query top_k.
Proof.
  assert (_tokenize (Str.lower query) = _tokenize query) as Htok.
  { unfold _tokenize. by rewrite str_lower_lower. }
  split; [done|]. unfold search. by rewrite Htok.
Qed.

(** ** More on scores *)

Lemma ln_ratio_nonneg (n k : nat) : 0 < k -> k <= n -> (0 <= ln (INR n / INR k))%R.
Proof.
  intros Hk Hkn. apply lt_0_INR in Hk. apply le_INR in Hkn.
  assert (1 <= INR n / INR k)%R as Hone.
  { replace 1%R with (INR k * / INR k)%R by (field; lra).
    apply Rmult_le_compat_r; [|done]. left. by apply Rinv_0_lt_compat. }
  destruct Hone as [Hlt | <-]; [|rewrite ln_1; lra].
  left. rewrite <- ln_1. apply ln_increasing; lra.
Qed.

Lemma IDF_nonneg (self : SimpleVectorStore) (term : string) :
  counted self -> (0 <= IDF self term)%R.
Proof.
  intros [Htotal Hfreqs]. unfold IDF.
  destruct (decide (0 < count_of (doc_freqs self) term)) as [Hdf|_]; [|lra].
  rewrite Htotal. apply ln_ratio_nonneg; [done|].
  rewrite Hfreqs. apply containing_le.
Qed.

Lemma TF_nonneg (doc : chunk) (term : string) : (0 <= TF doc term)%R.
Proof.
  unfold TF. destruct (chunk_tokens doc) as [|t l] eqn:Htok.
  - unfold occurrences. simpl. unfold Rdiv. rewrite Rmult_0_l. lra.
  - apply Rle_mult_inv_pos; [apply pos_INR|]. apply lt_0_INR. simpl. lia.
Qed.

Lemma sum_R_nonneg (l : list R) : Forall (fun x => (0 <= x)%R) l -> (0 <= sum_R l)%R.
Proof. induction 1 as [|x l Hx _ IH]; unfold sum_R in *; simpl; lra. Qed.

Lemma sum_R_zero (l : list R) : Forall (fun x => x = 0%R) l -> sum_R l = 0%R.
Proof. induction 1 as [|x l Hx _ IH]; unfold sum_R in *; simpl; lra. Qed.

Lemma tfidf_nonneg (self : SimpleVectorStore) (terms : list string) (doc : chunk) :
  counted self -> (0 <= tfidf self terms doc)%R.
Proof.
  intros Hc. unfold tfidf. apply sum_R_nonneg, Forall_map, Forall_forall.
  intros t _. apply Rmult_le_pos; [apply TF_nonneg | by apply IDF_nonneg].
Qed.

Lemma tfidf_zero (self : SimpleVectorStore) (terms : list string) (doc : chunk) :
  (forall t, t ∈ terms -> TF doc t = 0%R \/ IDF self t = 0%R) ->
  tfidf self terms doc = 0%R.
Proof.
  intros Hzero. unfold tfidf. apply sum_R_zero, Forall_map, Forall_forall.
  intros t Ht. destruct (Hzero t Ht) as [-> | ->]; lra.
Qed.

(** A term that is in no chunk or in every chunk has IDF 0. *)
Lemma IDF_uniform (self : SimpleVectorStore) (term : string) :
  counted self ->
  containing term (documents self) = 0
  \/ containing term (documents self) = length (documents self) ->
  IDF self term = 0%R.
Proof.
  intros [Htotal Hfreqs] Hk. unfold IDF. rewrite Hfreqs, Htotal.
  destruct (decide (0 < containing term (documents self))) as [Hpos|_]; [|done].
  destruct Hk as [Hk|Hk]; [lia|]. rewrite Hk. apply ln_ratio_same. lia.
Qed.

Lemma containing_in (term : string) (docs : list chunk) (doc : chunk) :
  doc ∈ docs -> term ∈ chunk_tokens doc -> 0 < containing term docs.
Proof.
  intros Hdoc Hterm. unfold containing.
  assert (doc ∈ filter (fun d => term ∈ chunk_tokens d) docs) as Hin
    by (by apply list_elem_of_filter).
  destruct (filter _ docs); [by apply elem_of_nil in Hin | simpl; lia].
Qed.

(** The sorted list is the list itself when no score is below the
    scores behind it. *)
Lemma sort_desc_flat (l : list (R * nat)) (x : R) :
  Forall (fun e => e.1 = x) l -> sort_desc l = l.
Proof.
  induction 1 as [|e l He Hl IH]; simpl; [done|].
  rewrite IH. destruct Hl as [|e' l He' _]; simpl; [done|].
  rewrite decide_False; [done|]. rewrite He, He'. lra.
Qed.

Lemma slice_to_imap {A B} (f : nat -> A -> B) (k : Z) (l : list A) :
  slice_to k (imap f l) = imap f (slice_to k l).
Proof.
  assert (forall n, take n (imap f l) = imap f (take n l)) as Htake.
  { intros n. revert f n. induction l as [|a l IH]; intros f n.
    - by destruct n.
    - destruct n as [|n]; [done|]. simpl. by rewrite IH. }
  unfold slice_to. rewrite length_imap. by destruct (0 <=? k)%Z.
Qed.

Lemma result_of_lookup (self : SimpleVectorStore) (x : R) (idx : nat) (d : chunk) :
  documents self !! idx = Some d -> result_of self (x, idx) = Ok (scored_copy d x).
Proof. intros Hd. unfold result_of. by rewrite Hd. Qed.

Lemma mapM_result_of_flat (self : SimpleVectorStore) (x : R) (docs : list chunk)
    (off : nat) :
  (forall i d, docs !! i = Some d -> documents self !! (off + i) = Some d) ->
  mapM (result_of self) (imap (fun i _ => (x, off + i)) docs)
  = Ok ((fun d => scored_copy d x) <$> docs).
Proof.
  revert off. induction docs as [|d docs IH]; intros off Hdocs; [done|].
  cbn [imap mapM].
  rewrite (result_of_lookup self x (off + 0) d (Hdocs 0 d eq_refl)).
  cbn [mbind result_bind].
  rewrite (imap_ext _ (fun i _ => (x, S off + i)) docs)
    by (intros; simpl; f_equal; lia).
  rewrite IH; [done|]. intros i d' Hi.
  replace (S off + i) with (off + S i) by lia. by apply Hdocs.
Qed.

Lemma prefix_length (n : nat) (s : string) : String.length (Str.prefix n s) <= n.
Proof.
  revert s. induction n as [|n IH]; intros s; [done|].
  destruct s as [|c s]; simpl; [lia|]. specialize (IH s). lia.
Qed.

Lemma scored_positions (self : SimpleVectorStore) (terms : list string) :
  (scored self terms).*2 = seq 0 (length (documents self)).
Proof.
  unfold scored. rewrite fmap_imap.
  transitivity ((fun j : nat => j) <$> seq 0 (length (documents self)));
    [|apply list_fmap_id].
  rewrite <- imap_seq_0. by apply imap_ext.
Qed.

Lemma text_field_new_chunk (g : list string) (n : nat) :
  text_field (new_chunk g n) = Str.join " " g.
Proof. unfold text_field. by rewrite lookup_text_new_chunk. Qed.

(** The chunks of the chunker are stored behind the chunks held, in
    their order, each in its stored form. *)
Lemma add_documents_stored (chunks : list chunk) (self : SimpleVectorStore)
    (document_id : option string) :
  Forall chunker_made chunks ->
  exists self',
    add_documents self chunks document_id = Ok self'
    /\ documents self'
       = (documents self ++ (stored_as document_id <$> chunks))%list.
Proof.
  intros Hmade. revert self.
  induction Hmade as [|c chunks (g & n & ->) _ IH]; intros self.
  - exists self. split; [done|]. simpl. by rewrite app_nil_r.
  - unfold add_documents. cbn [foldM].
    rewrite (add_chunk_text _ _ _ _ (lookup_text_new_chunk g n)).
    cbn [mbind result_bind].
    set (self1 := {| documents := _ |}).
    destruct (IH self1) as (self' & Hadd & Hdocs).
    exists self'. split; [exact Hadd|]. rewrite Hdocs. unfold self1. simpl.
    rewrite <- app_assoc. simpl. unfold stored_as at 2.
    by rewrite text_field_new_chunk.
Qed.

Lemma stored_as_fields (document_id : option string) (c : chunk) :
  stored_as document_id c !! "document_id" = Some (id_value document_id)
  /\ stored_as document_id c !! "text" = c !! "text"
  /\ stored_as document_id c !! "char_count" = c !! "char_count"
  /\ stored_as document_id c !! "chunk_id" = c !! "chunk_id".
Proof.
  unfold stored_as, indexed. repeat split.
  - rewrite !lookup_insert_ne by done. by rewrite lookup_insert_eq.
  - by rewrite !lookup_insert_ne.
  - by rewrite !lookup_insert_ne.
  - by rewrite !lookup_insert_ne.
Qed.

Section ServiceExtras.

Variable md5_hexdigest : string -> string.

(** X8. Scores are never negative, and a stored chunk that holds none
    of the query terms, or no token at all, scores 0. *)
Theorem scores_nonnegative (self : RAGSystem) (query : string) (doc : chunk) :
  reachable md5_hexdigest self ->
  doc ∈ documents (vector_store self) ->
  exists score,
    score_document (vector_store self) (_tokenize query) doc = Ok score
    /\ (0 <= score)%R
    /\ ((forall t, t ∈ _tokenize query -> t ∉ chunk_tokens doc) -> score = 0%R)
    /\ (chunk_tokens doc = [] -> score = 0%R).
Proof.
  intros [Hc Hdocs]%reachable_inv Hdoc.
  exists (tfidf (vector_store self) (_tokenize query) doc).
  split; [|split; [|split]].
  - apply score_document_tfidf; [done|].
    by apply (proj1 (Forall_forall _ _) Hdocs).
  - by apply tfidf_nonneg.
  - intros Habsent. apply tfidf_zero. intros t Ht. left.
    by apply TF_absent, Habsent.
  - intros Hnone. apply tfidf_zero. intros t Ht. left.
    apply TF_absent. rewrite Hnone. apply not_elem_of_nil.
Qed.

(** X9. When the index holds a single chunk, or when every query term
    is in no chunk or in every chunk, every chunk scores 0 and [search]
    returns the first [top_k] stored chunks in the order they were
    stored, each with score 0. *)
Theorem flat_scores_keep_order (self : RAGSystem) (query : string) (top_k : Z) :
  reachable md5_hexdigest self ->
  _tokenize query <> [] ->
  length (documents (vector_store self)) = 1
  \/ (forall t, t ∈ _tokenize query ->
        containing t (documents (vector_store self)) = 0
        \/ containing t (documents (vector_store self))
           = length (documents (vector_store self))) ->
  (forall doc, doc ∈ documents (vector_store self) ->
     score_document (vector_store self) (_tokenize query) doc = Ok 0%R)
  /\ search (vector_store self) query top_k
     = Ok ((fun d => scored_copy d 0%R)
             <$> slice_to top_k (documents (vector_store self))).
Proof.
  intros [Hc Hdocs]%reachable_inv Hq Hflat.
  set (store := vector_store self) in *.
  assert (forall t, t ∈ _tokenize query ->
            containing t (documents store) = 0
            \/ containing t (documents store) = length (documents store)) as Hterms.
  { destruct Hflat as [Hone|?]; [|done]. intros t _.
    pose proof (containing_le t (documents store)). lia. }
  assert (forall doc, tfidf store (_tokenize query) doc = 0%R) as Hzero.
  { intros doc. apply tfidf_zero. intros t Ht. right.
    by apply IDF_uniform, Hterms. }
  split.
  - intros doc Hdoc. rewrite <- (Hzero doc). apply score_document_tfidf; [done|].
    by apply (proj1 (Forall_forall _ _) Hdocs).
  - assert (scored store (_tokenize query)
            = imap (fun i _ => (0%R, 0 + i)) (documents store)) as Hscored.
    { unfold scored. apply imap_ext. intros i d _. by rewrite Hzero. }
    unfold search.
    destruct (documents store) as [|d ds] eqn:Hd.
    { destruct (slice_to_take top_k (@nil chunk)) as [n ->]. by rewrite take_nil. }
    destruct (_tokenize query) as [|t q] eqn:Htok; [done|].
    unfold ranking. rewrite Hd.
    rewrite <- Hd, (score_documents_scored store (t :: q) Hc) by (by rewrite Hd).
    cbn [mbind result_bind]. rewrite Hscored.
    rewrite (sort_desc_flat _ 0%R).
    + rewrite slice_to_imap, mapM_result_of_flat.
      * congruence.
      * intros i d' Hi. apply slice_to_lookup in Hi. by rewrite Hd.
    + apply Forall_forall. intros e He.
      apply elem_of_lookup_imap in He as (i & d' & -> & _). done.
Qed.

(** X10. [search] keeps the best: no position is returned twice, every
    entry of the ranking is a stored chunk with its score, and no chunk
    left out scores more than a chunk returned. *)
Theorem search_keeps_best (self : RAGSystem) (query : string) (top_k : Z) :
  reachable md5_hexdigest self ->
  _tokenize query <> [] ->
  exists top,
    ranking (vector_store self) (_tokenize query) top_k = Ok top
    /\ NoDup (top.*2)
    /\ (forall e, e ∈ top -> e ∈ scored (vector_store self) (_tokenize query))
    /\ (forall e e',
          e ∈ top ->
          e' ∈ scored (vector_store self) (_tokenize query) ->
          e' ∉ top ->
          (e'.1 <= e.1)%R).
Proof.
  intros [Hc Hdocs]%reachable_inv Hq.
  set (store := vector_store self) in *.
  set (all := scored store (_tokenize query)).
  destruct (search_ranking store query top_k Hc Hdocs Hq) as (Hrank & _).
  eexists. split; [exact Hrank|]. fold all.
  destruct (slice_to_take top_k (sort_desc all)) as [n ->].
  pose proof (sort_desc_sorted all (scored_by_position store _)) as Hsorted.
  split; [|split].
  - rewrite fmap_take. eapply sublist_NoDup; [|apply sublist_take].
    rewrite (sort_desc_perm all). unfold all. rewrite scored_positions.
    apply NoDup_seq.
  - intros e He. rewrite <- (sort_desc_perm all). by eapply subseteq_take.
  - intros e e' He He' Hout.
    apply elem_of_take in He as (i & Hi & Hin).
    rewrite <- (sort_desc_perm all) in He'.
    apply list_elem_of_lookup_1 in He' as [j Hj].
    assert (n <= j) as Hnj.
    { destruct (decide (n <= j)); [done|]. destruct Hout.
      apply elem_of_take. exists j. split; [done | lia]. }
    destruct (StronglySorted_lookup _ _ i j e e' Hsorted ltac:(lia) Hi Hj)
      as [Hlt | [Heq _]]; lra.
Qed.

(** X11. With [top_k = 0] [get_relevant_context] does not return an
    empty context: it returns the first 3000 characters of the full
    context. *)
Theorem context_for_top_k_zero (self : RAGSystem) (query : string) :
  reachable md5_hexdigest self ->
  exists full,
    get_full_context self = Ok full
    /\ get_relevant_context self query 0 = Ok (Str.prefix 3000 full)
    /\ String.length (Str.prefix 3000 full) <= 3000.
Proof.
  intros [Hc Hdocs]%reachable_inv.
  destruct (get_all_text_returns (vector_store self) Hdocs) as [full Hfull].
  exists full. split; [done|]. split; [|apply prefix_length].
  unfold get_relevant_context.
  rewrite (search_zero (vector_store self) query Hc Hdocs).
  cbn [mbind result_bind]. by rewrite Hfull.
Qed.

(** X12. When [search] returns results, the context is their texts in
    the order of the results, joined by the separator line, and each of
    these texts is the text of a stored chunk. *)
Theorem context_joins_results (self : RAGSystem) (query : string) (top_k : Z)
    (r : chunk) (rs : list chunk) :
  reachable md5_hexdigest self ->
  search (vector_store self) query top_k = Ok (r :: rs) ->
  exists texts,
    Forall2 (fun res text => res !! "text" = Some (PStr text)) (r :: rs) texts
    /\ get_relevant_context self query top_k
       = Ok (Str.join context_separator texts)
    /\ Forall (fun text =>
                 exists stored, stored ∈ documents (vector_store self)
                                /\ stored !! "text" = Some (PStr text)) texts.
Proof.
  intros [Hc Hdocs]%reachable_inv Hsearch.
  assert (Forall (fun res => exists stored text,
                      stored ∈ documents (vector_store self)
                      /\ stored !! "text" = Some (PStr text)
                      /\ res !! "text" = Some (PStr text)) (r :: rs)) as Hres.
  { destruct (decide (_tokenize query = [])) as [Hq|Hq].
    - unfold search in Hsearch. rewrite Hq in Hsearch.
      destruct (documents (vector_store self)) as [|d ds] eqn:Hd; [done|].
      injection Hsearch as Hsl. rewrite <- Hsl.
      apply Forall_forall. intros res Hin%slice_to_elem_of.
      destruct (lookup_text_from_chunker res
                  (proj1 (Forall_forall _ _) Hdocs res Hin)) as [text Htext].
      by exists res, text.
    - destruct (search_ranking (vector_store self) query top_k Hc Hdocs Hq)
        as (_ & rs' & Hrs' & Hall).
      rewrite Hsearch in Hrs'. injection Hrs' as <-.
      apply Forall_forall. intros res Hin.
      apply list_elem_of_lookup_1 in Hin as [i Hi].
      destruct (Forall2_lookup_r _ _ _ _ _ Hall Hi) as (e & He & stored & Hstored & ->).
      assert (stored ∈ documents (vector_store self)) as Hmem
        by (by eapply list_elem_of_lookup_2).
      destruct (lookup_text_from_chunker stored
                  (proj1 (Forall_forall _ _) Hdocs stored Hmem)) as [text Htext].
      exists stored, text. split; [done|]. split; [done|].
      destruct (lookup_scored_copy stored e.1) as (_ & _ & _ & ->). done. }
  destruct (mapM_Forall2 (fun res => getitem res "text" ≫= as_str)
              (fun res text => res !! "text" = Some (PStr text)) (r :: rs))
    as (texts & Htexts & Hall).
  { eapply Forall_impl; [exact Hres|]. intros res (_ & text & _ & _ & Hres').
    exists text. unfold getitem. by rewrite Hres'. }
  exists texts. split; [done|]. split.
  - unfold get_relevant_context. rewrite Hsearch. cbn [mbind result_bind].
    by rewrite Htexts.
  - apply Forall_forall. intros text Hin.
    apply list_elem_of_lookup_1 in Hin as [i Hi].
    destruct (Forall2_lookup_r _ _ _ _ _ Hall Hi) as (res & Hres_i & Htext).
    destruct (proj1 (Forall_lookup _ _) Hres i res Hres_i)
      as (stored & text' & Hmem & Hstored & Hres').
    exists stored. split; [done|]. congruence.
Qed.

(** X13. [clear] empties the service for good and all: the statistics
    are zero, a second [clear] changes nothing, and a text added next
    is chunked and stored even if it had been added before the
    [clear]. *)
Theorem clear_resets (self : RAGSystem) (text : string)
    (document_id : option string) :
  get_stats (clear self) = {| total_chunks := 0; unique_documents := 0 |}
  /\ clear (clear self) = clear self
  /\ chunker (clear self) = chunker self
  /\ exists self',
       add_document md5_hexdigest (clear self) text document_id
       = Ok (Z.of_nat (length (chunk_text (chunker self) text)), self')
       /\ total_chunks (get_stats self')
          = length (chunk_text (chunker self) text)
       /\ unique_documents (get_stats self') = 1.
Proof.
  split; [done|]. split; [done|]. split; [done|].
  unfold add_document. cbn [clear document_hashes chunker vector_store].
  rewrite decide_False by set_solver.
  destruct (add_documents_made (chunk_text (chunker self) text)
              (clear_store (vector_store self)) document_id (chunk_text_made _ _))
    as (store & -> & Hlen & _).
  cbn [mbind result_bind]. eexists. split; [done|].
  unfold get_stats. cbn [vector_store document_hashes total_chunks unique_documents].
  split; [by rewrite Hlen|].
  replace ({[md5_hexdigest text]} ∪ document_hashes (clear self))
    with ({[md5_hexdigest text]} : gset string) by set_solver.
  apply size_singleton.
Qed.

(** X14. [add_document] always returns a number that is not negative,
    and it returns 0 in two cases only: the text was added before, or
    the text is empty or white space only. *)
Theorem add_document_zero_iff (self : RAGSystem) (text : string)
    (document_id : option string) :
  exists n self',
    add_document md5_hexdigest self text document_id = Ok (n, self')
    /\ (0 <= n)%Z
    /\ (n = 0%Z <->
        md5_hexdigest text ∈ document_hashes self
        \/ Forall (fun c => Char.isspace c = true) (Str.chars text)).
Proof.
  unfold add_document.
  destruct (decide (md5_hexdigest text ∈ document_hashes self)) as [Hin|Hnot].
  - exists 0%Z, self. split; [done|]. split; [lia|]. split; [by left | done].
  - destruct (add_documents_made (chunk_text (chunker self) text)
                (vector_store self) document_id (chunk_text_made _ _))
      as (store & -> & _).
    cbn [mbind result_bind]. eexists _, _. split; [done|]. split; [lia|].
    rewrite <- strip_empty_iff, <- (chunk_text_nil_iff (chunker self) text).
    split.
    + intros Hzero. right.
      destruct (chunk_text (chunker self) text); [done | simpl in Hzero; lia].
    + intros [?| ->]; done.
Qed.

(** X15. A text not seen before is stored behind the chunks held: these
    keep their places, and chunk [i] of the text follows at place
    [len + i] with its text, char_count and chunk_id and with the
    document_id given. *)
Theorem add_document_appends (self : RAGSystem) (text : string)
    (document_id : option string) :
  md5_hexdigest text ∉ document_hashes self ->
  exists self',
    add_document md5_hexdigest self text document_id
    = Ok (Z.of_nat (length (chunk_text (chunker self) text)), self')
    /\ documents (vector_store self')
       = (documents (vector_store self)
          ++ (stored_as document_id <$> chunk_text (chunker self) text))%list
    /\ (forall i d, documents (vector_store self) !! i = Some d ->
                    documents (vector_store self') !! i = Some d)
    /\ (forall i c, chunk_text (chunker self) text !! i = Some c ->
          exists d,
            documents (vector_store self')
              !! (length (documents (vector_store self)) + i) = Some d
            /\ d !! "document_id" = Some (id_value document_id)
            /\ d !! "text" = c !! "text"
            /\ d !! "char_count" = c !! "char_count"
            /\ d !! "chunk_id" = Some (PInt (Z.of_nat i))).
Proof.
  intros Hnot. unfold add_document. rewrite decide_False by done.
  destruct (add_documents_stored (chunk_text (chunker self) text)
              (vector_store self) document_id (chunk_text_made _ _))
    as (store & -> & Hdocs).
  cbn [mbind result_bind]. eexists. split; [done|].
  cbn [vector_store]. rewrite Hdocs. split; [done|]. split.
  - intros i d Hi. by apply lookup_app_l_Some.
  - intros i c Hi. exists (stored_as document_id c).
    destruct (stored_as_fields document_id c) as (Hid & Htext & Hcount & Hcid).
    split; [|split; [done|split; [done|split; [done|]]]].
    + rewrite lookup_app_r by lia.
      replace (length (documents (vector_store self)) + i
               - length (documents (vector_store self))) with i by lia.
      by rewrite list_lookup_fmap, Hi.
    + rewrite Hcid. rewrite chunk_text_groups, list_lookup_imap in Hi.
      destruct (sentence_groups (chunker self) text !! i) as [g|]; [|done].
      injection Hi as <-. unfold new_chunk.
      rewrite !lookup_insert_ne by done. by rewrite lookup_insert_eq.
Qed.

End ServiceExtras.

(** ** The check of an uploaded file name *)

Lemma rsplit_dot_chars_None (l : list ascii) :
  rsplit_dot_chars l = None <-> existsb is_dot l = false.
Proof.
  induction l as [|c l IH]; simpl; [done|].
  destruct (rsplit_dot_chars l) as [[b a]|].
  - split; [done|]. intros [_ H]%orb_false_iff. apply IH in H. done.
  - destruct (is_dot c); simpl; [done|]. by rewrite <- IH.
Qed.

Lemma is_dot_eq (c : ascii) : is_dot c = true -> c = "."%char.
Proof. destruct c as [[] [] [] [] [] [] [] []]; done. Qed.

Lemma rsplit_dot_chars_Some (l before behind : list ascii) :
  rsplit_dot_chars l = Some (before, behind)
  <-> l = (before ++ "."%char :: behind)%list /\ existsb is_dot behind = false.
Proof.
  split.
  - revert before. induction l as [|c l IH]; intros before; simpl; [done|].
    destruct (rsplit_dot_chars l) as [[b a]|] eqn:Hl.
    + intros [= <- <-]. destruct (IH b eq_refl) as [-> Ha]. done.
    + apply rsplit_dot_chars_None in Hl.
      destruct (is_dot c) eqn:Hc; [|done]. intros [= <- <-].
      by rewrite (is_dot_eq c Hc).
  - intros [-> Hnone]. induction before as [|x before IH]; simpl.
    + by rewrite (proj2 (rsplit_dot_chars_None behind) Hnone).
    + by rewrite IH.
Qed.

Lemma of_chars_app (a b : list ascii) :
  Str.of_chars (a ++ b) = Str.of_chars a ++ Str.of_chars b.
Proof.
  unfold Str.of_chars. induction a as [|c a IH]; simpl; [done|]. by rewrite IH.
Qed.

Lemma chars_append (s t : string) :
  Str.chars (s ++ t) = (Str.chars s ++ Str.chars t)%list.
Proof.
  unfold Str.chars. induction s as [|c s IH]; simpl; [done|]. by rewrite IH.
Qed.

(** X16. [allowed_file] never raises, and it accepts exactly the names
    whose part behind the last dot is, in lower case, one of the seven
    extensions. *)
Theorem allowed_file_spec (filename : string) :
  exists b,
    allowed_file filename = Ok b
    /\ (b = true <->
        exists stem extension,
          filename = stem ++ "." ++ extension
          /\ has_dot extension = false
          /\ Str.lower extension ∈ ALLOWED_EXTENSIONS).
Proof.
  unfold allowed_file, has_dot, rsplit_dot.
  destruct (rsplit_dot_chars (Str.chars filename)) as [[before behind]|] eqn:Hsplit.
  - apply rsplit_dot_chars_Some in Hsplit as [Hchars Hnone].
    assert (existsb is_dot (Str.chars filename) = true) as ->.
    { rewrite Hchars, existsb_app. simpl. by rewrite orb_true_r. }
    eexists. split; [reflexivity|]. rewrite bool_decide_eq_true. split.
    + intros Hext. exists (Str.of_chars before), (Str.of_chars behind).
      split; [|by rewrite chars_of_chars].
      rewrite <- (of_chars_chars filename), Hchars.
      by rewrite of_chars_app.
    + intros (stem & extension & -> & Hnone' & Hext).
      assert (Str.chars (stem ++ "." ++ extension)
              = (Str.chars stem ++ "."%char :: Str.chars extension)%list) as Heq
        by (by rewrite chars_append).
      rewrite Heq in Hchars.
      assert (rsplit_dot_chars (Str.chars stem ++ "."%char :: Str.chars extension)
              = Some (Str.chars stem, Str.chars extension)) as H1
        by (by apply rsplit_dot_chars_Some).
      assert (rsplit_dot_chars (Str.chars stem ++ "."%char :: Str.chars extension)
              = Some (before, behind)) as H2
        by (by apply rsplit_dot_chars_Some).
      rewrite H1 in H2. injection H2 as _ <-. by rewrite of_chars_chars.
  - apply rsplit_dot_chars_None in Hsplit. rewrite Hsplit.
    exists false. split; [done|]. split; [done|].
    intros (stem & extension & -> & _).
    assert (Str.chars (stem ++ "." ++ extension)
            = (Str.chars stem ++ "."%char :: Str.chars extension)%list) as Heq
      by (by rewrite chars_append).
    rewrite Heq, existsb_app in Hsplit. simpl in Hsplit.
    by rewrite orb_true_r in Hsplit.
Qed.

(** ** Cleaning extracted text *)

Lemma collapse_spaces_spec (in_run : bool) (l : list N) :
  Forall (fun c => Uni.isspace c = true -> c = 32%N)
    (collapse_spaces in_run l).
Proof.
  revert in_run. induction l as [|c l IH]; intros in_run; simpl; [done|].
  destruct (Uni.isspace c) eqn:Hc.
  - destruct in_run; [apply IH|]. constructor; [done | apply IH].
  - constructor; [|apply IH]. congruence.
Qed.

Lemma newline_is_space (c : N) :
  is_newline c = true -> Uni.isspace c = true /\ c <> 32%N.
Proof. unfold is_newline. intros ->%N.eqb_eq. done. Qed.

Lemma sub_blank_lines_id (l : list N) :
  Forall (fun c => is_newline c = false) l -> sub_blank_lines 0 l = l.
Proof. induction 1 as [|c l Hc _ IH]; simpl; [done|]. by rewrite Hc, IH. Qed.

Lemma Forall_lstrip (P : N -> Prop) (l : list N) :
  Forall P l -> Forall P (Uni.lstrip l).
Proof.
  induction 1 as [|c l Hc Hl IH]; simpl; [done|].
  destruct (Uni.isspace c); [done | by constructor].
Qed.

Lemma Forall_strip (P : N -> Prop) (l : list N) :
  Forall P l -> Forall P (Uni.strip l).
Proof.
  intros H. unfold Uni.strip.
  by apply List.Forall_rev, Forall_lstrip, List.Forall_rev, Forall_lstrip.
Qed.

Lemma lstrip_begins_solid (l : list N) : begins_solid (Uni.lstrip l).
Proof.
  induction l as [|c l IH]; simpl; [done|].
  destruct (Uni.isspace c) eqn:Hc; [done | exact Hc].
Qed.

Lemma lstrip_of_solid (l : list N) : begins_solid l -> Uni.lstrip l = l.
Proof. destruct l as [|c l]; simpl; [done|]. by intros ->. Qed.

Lemma lstrip_app_keeps (a b : list N) (c : N) :
  Uni.isspace c = false ->
  Uni.lstrip (a ++ c :: b) = (Uni.lstrip a ++ c :: b)%list.
Proof.
  intros Hc. induction a as [|x a IH]; simpl; [by rewrite Hc|].
  by destruct (Uni.isspace x).
Qed.

Lemma uni_strip_begins_solid (l : list N) : begins_solid (Uni.strip l).
Proof.
  unfold Uni.strip.
  pose proof (lstrip_begins_solid l) as Hm.
  destruct (Uni.lstrip l) as [|c q]; [done|].
  simpl. rewrite lstrip_app_keeps by done.
  rewrite rev_app_distr. simpl. exact Hm.
Qed.

Lemma uni_strip_ends_solid (l : list N) : begins_solid (rev (Uni.strip l)).
Proof. unfold Uni.strip. rewrite rev_involutive. apply lstrip_begins_solid. Qed.

Lemma uni_strip_strip (l : list N) : Uni.strip (Uni.strip l) = Uni.strip l.
Proof.
  unfold Uni.strip at 1.
  rewrite (lstrip_of_solid _ (uni_strip_begins_solid l)).
  rewrite (lstrip_of_solid _ (uni_strip_ends_solid l)).
  by rewrite rev_involutive.
Qed.

(** X17. What [_clean_text] returns: the text with every run of white
    space made one space, then the control characters, the byte order
    marks and the zero width spaces removed, and the ends trimmed; the
    pass for blank lines never changes anything, since no line feed is
    left by then. The result holds no control character, no byte order
    mark, no zero width space and no white space but the space, and is
    trimmed. *)
Theorem clean_text_spec (text : list N) :
  let kept := Uni.remove zero_width_space
                (Uni.remove byte_order_mark
                   (filter (fun c => is_control c = false)
                      (collapse_spaces false text))) in
  let out := _clean_text text in
  sub_blank_lines 0 kept = kept
  /\ out = Uni.strip kept
  /\ Forall (fun c => is_control c = false
                      /\ c <> byte_order_mark /\ c <> zero_width_space
                      /\ (Uni.isspace c = true -> c = 32%N)) out
  /\ Uni.strip out = out.
Proof.
  intros kept out.
  assert (Forall (fun c => is_control c = false
                           /\ c <> byte_order_mark /\ c <> zero_width_space
                           /\ (Uni.isspace c = true -> c = 32%N)) kept) as Hkept.
  { apply Forall_forall. intros c Hin. subst kept. unfold Uni.remove in Hin.
    apply list_elem_of_filter in Hin as [Hz Hin].
    apply list_elem_of_filter in Hin as [Hb Hin].
    apply list_elem_of_filter in Hin as [Hc Hin].
    repeat split; try done.
    apply (proj1 (Forall_forall _ _) (collapse_spaces_spec false text) c Hin). }
  assert (sub_blank_lines 0 kept = kept) as Hsub.
  { apply sub_blank_lines_id.
    eapply Forall_impl; [exact Hkept|]. intros c (_ & _ & _ & Hc).
    destruct (is_newline c) eqn:Hn; [|done].
    destruct (newline_is_space c Hn) as [Hs Hne]. by destruct Hne; apply Hc. }
  assert (out = Uni.strip kept) as Heq.
  { subst out. unfold _clean_text. destruct text as [|c text]; [done|].
    cbv zeta. fold kept. by rewrite Hsub. }
  split; [done|]. split; [done|]. rewrite Heq. split.
  - by apply Forall_strip.
  - apply uni_strip_strip.
Qed.

(** ** Tables *)

Lemma join_empty_iff (sep : string) (parts : list string) :
  sep <> "" -> Str.join sep parts = "" <-> parts = [] \/ parts = [""].
Proof.
  intros Hsep. destruct parts as [|p [|p' ps]]; simpl.
  - split; [by left | done].
  - split; [intros ->; by right | by intros [?|[= ->]]].
  - split; [|by intros [?|?]]. destruct p; [|done]. simpl.
    destruct sep; done.
Qed.

Lemma existsb_nonempty (cells : list string) :
  existsb (fun cell => negb (String.eqb cell "")) cells = false
  <-> Forall (fun cell => cell = "") cells.
Proof.
  induction cells as [|c cells IH]; simpl; [done|].
  rewrite orb_false_iff, IH, Forall_cons, negb_false_iff, String.eqb_eq. done.
Qed.

Lemma table_rows_nonempty (table : list (list (option string))) :
  Forall (fun line => line <> "") (table_rows table).
Proof.
  unfold table_rows. apply Forall_forall. intros line Hline.
  apply list_elem_of_omap in Hline as (row & _ & Hrow).
  assert (line = Str.join " | " (map cell_text row)
          /\ existsb (fun cell => negb (String.eqb cell "")) (map cell_text row)
             = true) as [-> Hany].
  { destruct row as [|cell row]; [done|]. cbv zeta in Hrow.
    destruct (existsb _ (map cell_text (cell :: row))) eqn:Hany; [|done].
    by injection Hrow as <-. }
  intros Hjoin. apply (join_empty_iff " | ") in Hjoin as [Hnil | Hone]; [| |done].
  - by rewrite Hnil in Hany.
  - by rewrite Hone in Hany.
Qed.

Lemma table_rows_nil_iff (table : list (list (option string))) :
  table_rows table = []
  <-> Forall (Forall (fun cell => cell_text cell = "")) table.
Proof.
  unfold table_rows. induction table as [|row table IH]; simpl; [done|].
  rewrite Forall_cons, <- IH. destruct row as [|cell row].
  - split; [done | by intros [_ ?]].
  - destruct (existsb _ _) eqn:Hany; simpl.
    + split; [done|]. intros [Hrow _].
      assert (existsb (fun c => negb (String.eqb c ""))
                (map cell_text (cell :: row)) = false) as Hnone
        by (by apply existsb_nonempty, Forall_map).
      congruence.
    + apply existsb_nonempty in Hany. apply Forall_map in Hany.
      split; [by intros ? | by intros [_ ?]].
Qed.

(** X18. [_table_to_text] returns the empty string exactly when no cell
    of the table has text: every cell is [None], empty, or white space
    only. *)
Theorem table_to_text_empty_iff (table : list (list (option string))) :
  _table_to_text table = ""
  <-> Forall (Forall (fun cell => cell_text cell = "")) table.
Proof.
  rewrite <- table_rows_nil_iff. unfold _table_to_text.
  destruct table as [|row table]; [done|].
  pose proof (table_rows_nonempty (row :: table)) as Hlines.
  destruct (table_rows (row :: table)) as [|line lines]; [done|].
  split; [|done]. intros Hjoin.
  by destruct (join_nonempty (String "010" "") (line :: lines)).
Qed.

(** ** Questions of a quiz *)

Lemma leading_letter_spec (s letter : string) :
  leading_letter s = Some letter -> letter ∈ option_letters.
Proof.
  unfold leading_letter, option_letters. destruct (Str.chars s) as [|c l]; [done|].
  destruct c as [[] [] [] [] [] [] [] []]; simpl; try done;
    intros [= <-]; set_solver.
Qed.

Section QuizProperties.

Variable pyfloat : Type.
Variable float_truth : pyfloat -> bool.
Variable py_str : json pyfloat -> string.

Lemma qcm_answer_spec (correct : json pyfloat) :
  exists letter, qcm_answer pyfloat correct = JStr pyfloat letter
                 /\ letter ∈ option_letters.
Proof.
  unfold qcm_answer. destruct correct as [| | | |s| |];
    try (exists "A"; split; [done | unfold option_letters; set_solver]).
  destruct (leading_letter (Str.strip s)) as [letter|] eqn:Hl.
  - exists letter. split; [done|]. by eapply leading_letter_spec.
  - exists "A". split; [done | unfold option_letters; set_solver].
Qed.

Lemma with_answer_frame (q_type key : string) (q processed : gmap string (json pyfloat)) :
  key <> "options" -> key <> "correct_answer" ->
  with_answer pyfloat float_truth py_str q_type q processed !! key
  = processed !! key.
Proof.
  intros Hopt Hans. unfold with_answer.
  repeat destruct (String.eqb _ _); by rewrite !lookup_insert_ne.
Qed.

(** What [_process_question] does with a dictionary. *)
Lemma process_question_obj (m : gmap string (json pyfloat)) (index : Z)
    (difficulty : string) (question_types : list string) :
  _process_question pyfloat float_truth py_str (JObj pyfloat m) index difficulty
    question_types
  = if truthy pyfloat float_truth (get pyfloat m "question" (JNull pyfloat))
    then match get pyfloat m "type" (JStr pyfloat (default_type question_types)) with
         | JStr _ ty =>
             Ok (Some (with_answer pyfloat float_truth py_str (Str.lower ty) m
                         (question_base pyfloat m index difficulty question_types)))
         | _ => Raise AttributeError
         end
    else Ok None.
Proof.
  unfold _process_question. cbn [as_obj mbind result_bind].
  destruct (truthy _ _ _); cbn [negb]; [|done].
  by destruct (get pyfloat m "type" _).
Qed.

Lemma get_type_cases (m : gmap string (json pyfloat)) (default : string) :
  (exists ty, get pyfloat m "type" (JStr pyfloat default) = JStr pyfloat ty
              /\ forall v, m !! "type" = Some v -> v = JStr pyfloat ty)
  \/ (exists v, m !! "type" = Some v
                /\ (forall s, v <> JStr pyfloat s)
                /\ get pyfloat m "type" (JStr pyfloat default) = v).
Proof.
  unfold get. destruct (m !! "type") as [v|] eqn:Htype.
  - destruct v as [| | | |ty| |];
      try (right; eexists; by repeat split).
    left. exists ty. split; [done|]. by intros v [= <-].
  - left. exists default. by split.
Qed.

(** X19. How [_process_question] ends. It raises exactly when the
    question is not a dictionary, or has a text and a type that is not a
    string; it leaves the question out exactly when the question is a
    dictionary without a text; otherwise it returns the processed
    question with the index as id and the question text as given. *)
Theorem process_question_outcome (q : json pyfloat) (index : Z)
    (difficulty : string) (question_types : list string) :
  let run := _process_question pyfloat float_truth py_str q index difficulty
               question_types in
  (raises run <->
   (forall m, q <> JObj pyfloat m)
   \/ exists m v, q = JObj pyfloat m
                  /\ truthy pyfloat float_truth (get pyfloat m "question" (JNull pyfloat)) = true
                  /\ m !! "type" = Some v
                  /\ forall s, v <> JStr pyfloat s)
  /\ (run = Ok None <->
      exists m, q = JObj pyfloat m
                /\ truthy pyfloat float_truth (get pyfloat m "question" (JNull pyfloat)) = false)
  /\ (forall p, run = Ok (Some p) ->
        p !! "id" = Some (JInt pyfloat index)
        /\ exists m, q = JObj pyfloat m /\ p !! "question" = m !! "question").
Proof.
  intros run. subst run.
  destruct q as [| | | | | |m];
    try (split; [split; [intros _; by left | intros _; by eexists]|];
         split; [split; [done | by intros (m & ? & _)] | done]).
  rewrite process_question_obj.
  destruct (truthy pyfloat float_truth (get pyfloat m "question" (JNull pyfloat)))
    eqn:Htruth.
  - assert (exists v, m !! "question" = Some v) as [qv Hqv].
    { unfold get in Htruth. destruct (m !! "question"); [by eexists | done]. }
    destruct (get_type_cases m (default_type question_types))
      as [(ty & -> & Hty) | (v & Htype & Hnot & ->)].
    + split; [split|].
      * intros [e He]. discriminate He.
      * intros [Hno | (m' & v & [= <-] & _ & Hv & Hnot)]; [by destruct (Hno m)|].
        by destruct (Hnot ty); apply Hty.
      * split; [split; [done|]; intros (m' & [= <-] & ?); congruence|].
        intros p [= <-]. rewrite !with_answer_frame by done.
        unfold question_base. split; [by rewrite lookup_insert_eq|].
        exists m. split; [done|]. rewrite lookup_insert_ne by done.
        rewrite lookup_insert_eq. unfold get. by rewrite Hqv.
    + assert (match v with JStr _ _ => false | _ => true end = true) as Hv.
      { destruct v; try done. by destruct (Hnot s). }
      split; [split|].
      * intros _. right. by exists m, v.
      * intros _. destruct v; try done; by eexists.
      * split; [split; [by destruct v|]; intros (m' & [= <-] & ?); congruence|].
        intros p Hp. by destruct v.
  - split; [split|].
    + intros [e He]. discriminate He.
    + intros [Hno | (m' & v & [= <-] & Ht & _)]; [by destruct (Hno m) | congruence].
    + split; [split; [intros _; by exists m | done] | done].
Qed.

(** X20. A question of type QCM (in any letter case) that has a text is
    kept, and its answer is one of the letters A, B, C, D; when four or
    more options are given, the first four are kept, each trimmed, rid
    of a leading letter and mark, and given its letter. *)
Theorem qcm_question_normalised (m : gmap string (json pyfloat)) (index : Z)
    (difficulty : string) (question_types : list string) (ty : string) :
  truthy pyfloat float_truth (get pyfloat m "question" (JNull pyfloat)) = true ->
  get pyfloat m "type" (JStr pyfloat (default_type question_types))
  = JStr pyfloat ty ->
  Str.lower ty = "qcm" ->
  exists p letter,
    _process_question pyfloat float_truth py_str (JObj pyfloat m) index
      difficulty question_types = Ok (Some p)
    /\ p !! "correct_answer" = Some (JStr pyfloat letter)
    /\ letter ∈ option_letters
    /\ (forall o1 o2 o3 o4 more,
          m !! "options" = Some (JList pyfloat (o1 :: o2 :: o3 :: o4 :: more)) ->
          p !! "options"
          = Some (JList pyfloat
                    ((fun '(letter, o) =>
                        JStr pyfloat
                          (letter ++ ") "
                           ++ strip_option_prefix
                                (Str.strip (str_of pyfloat py_str o))))
                       <$> [("A", o1); ("B", o2); ("C", o3); ("D", o4)]))).
Proof.
  intros Htruth Htype Hqcm. rewrite process_question_obj, Htruth, Htype, Hqcm.
  destruct (qcm_answer_spec (get pyfloat m "correct_answer" (JStr pyfloat "A")))
    as (letter & Hletter & Hin).
  eexists _, letter. split; [reflexivity|]. unfold with_answer.
  rewrite String.eqb_refl.
  split; [|split; [done|]].
  - rewrite lookup_insert_eq. by rewrite Hletter.
  - intros o1 o2 o3 o4 more Hopts.
    rewrite lookup_insert_ne by done. rewrite lookup_insert_eq.
    unfold get. rewrite Hopts. done.
Qed.

End QuizProperties.

(** ** Term frequencies and ingestion *)

Lemma occurrences_pos (term : string) (tokens : list string) :
  term ∈ tokens -> 0 < occurrences term tokens.
Proof.
  unfold occurrences. intros Hin.
  assert (term ∈ filter (fun t => t = term) tokens) as Hf
    by (by apply list_elem_of_filter).
  destruct (filter _ tokens); [by apply elem_of_nil in Hf | simpl; lia].
Qed.

(** X21. The TF mapping of a token list has exactly the distinct tokens
    as keys, and gives each the share of the tokens equal to it, a
    number above 0 and at most 1; for no tokens it is empty. *)
Theorem compute_tf_range (tokens : list string) :
  dom (_compute_tf tokens) = list_to_set tokens
  /\ (forall term x,
        _compute_tf tokens !! term = Some x ->
        x = (INR (occurrences term tokens) / INR (length tokens))%R
        /\ (0 < x <= 1)%R)
  /\ _compute_tf [] = ∅.
Proof.
  split; [|split; [|done]].
  - apply set_eq. intros term.
    rewrite elem_of_dom, elem_of_list_to_set, lookup_compute_tf.
    destruct (decide (term ∈ tokens)); [by split; [|eexists] |].
    split; [by intros [? ?] | done].
  - intros term x. rewrite lookup_compute_tf.
    destruct (decide (term ∈ tokens)) as [Hin|]; [|done]. intros [= <-].
    split; [done|].
    pose proof (occurrences_pos term tokens Hin) as Hpos.
    assert (occurrences term tokens <= length tokens) as Hle
      by apply length_filter.
    apply lt_0_INR in Hpos as Hpos'. apply le_INR in Hle.
    assert (0 < INR (length tokens))%R as Hlen by lra.
    split.
    + by apply Rdiv_lt_0_compat.
    + apply Rmult_le_reg_r with (INR (length tokens)); [done|].
      unfold Rdiv. rewrite Rmult_assoc, Rinv_l by lra. lra.
Qed.

(** X22. [add_documents] returns exactly when every chunk has a text
    that is a string; otherwise it raises. *)
Theorem add_documents_accepts (chunks : list chunk) (self : SimpleVectorStore)
    (document_id : option string) :
  (exists self', add_documents self chunks document_id = Ok self')
  <-> Forall (fun c => exists text, c !! "text" = Some (PStr text)) chunks.
Proof.
  unfold add_documents. revert self.
  induction chunks as [|c chunks IH]; intros self; cbn [foldM].
  - split; [done | by eexists].
  - rewrite Forall_cons. split.
    + intros [self' Hadd].
      destruct (add_chunk document_id self c) as [self1|e] eqn:Hc; [|done].
      cbn [mbind result_bind] in Hadd. split; [|apply (IH self1); by eexists].
      unfold add_chunk, getitem in Hc. rewrite lookup_insert_ne in Hc by done.
      destruct (c !! "text") as [[| |text| | |]|]; try done. by exists text.
    + intros [[text Htext] Hrest].
      rewrite (add_chunk_text _ _ _ _ Htext). cbn [mbind result_bind].
      by apply IH.
Qed.

(** ** The further properties on examples *)

Lemma chunk_text_fields_witness :
  exists g,
    sentence_groups {| chunk_size := 50; chunk_overlap := 10 |} "A cat sat."
      !! 0 = Some g
    /\ g <> []
    /\ Str.join " " g <> "".
Proof.
  destruct (chunk_text_fields {| chunk_size := 50; chunk_overlap := 10 |}
              "A cat sat." 0 (new_chunk ["A cat sat."] 0))
    as (g & Hg & Hne & _ & Hjoin & _).
  - reflexivity.
  - by exists g.
Defined.

Lemma chunk_size_soft_witness :
  exists sentence,
    ["Abcd."; "Efgh."; "Ijklmnop."]
    = (_get_overlap_sentences {| chunk_size := 12; chunk_overlap := 10 |}
         (group_before
            (sentence_groups {| chunk_size := 12; chunk_overlap := 10 |}
               "Abcd. Efgh. Ijklmnop.") 1) ++ [sentence])%list.
Proof.
  apply (chunk_size_soft {| chunk_size := 12; chunk_overlap := 10 |}
           "Abcd. Efgh. Ijklmnop." 1).
  - reflexivity.
  - vm_compute. reflexivity.
Defined.

Lemma chunk_size_kept_witness :
  exists n,
    new_chunk ["A cat sat."; "A dog ran far away today."] 0 !! "char_count"
    = Some (PInt n)
    /\ (n <= 50)%Z.
Proof.
  apply (chunk_size_kept {| chunk_size := 50; chunk_overlap := 10 |}
           "A cat sat. A dog ran far away today. A bird flew high." 0).
  - vm_compute. discriminate.
  - vm_compute. repeat constructor; discriminate.
  - reflexivity.
Defined.

Lemma example_first_chunk :
  exists doc, documents (vector_store example_service) !! 0 = Some doc.
Proof. eexists. vm_compute. reflexivity. Qed.

Lemma scores_nonnegative_witness :
  exists doc score,
    score_document (vector_store example_service) (_tokenize "cat") doc = Ok score
    /\ (0 <= score)%R.
Proof.
  destruct example_first_chunk as [doc Hdoc].
  destruct (scores_nonnegative plain_digest example_service "cat" doc
              example_reachable) as (score & Hscore & Hpos & _).
  - by eapply list_elem_of_lookup_2.
  - by exists doc, score.
Defined.

Lemma flat_scores_keep_order_witness :
  search (vector_store example_service) "the" 1
  = Ok ((fun d => scored_copy d 0%R)
          <$> slice_to 1 (documents (vector_store example_service))).
Proof.
  apply (flat_scores_keep_order plain_digest example_service "the" 1
           example_reachable).
  - vm_compute. discriminate.
  - right. intros t Ht. right.
    assert (t = "the") as -> by (vm_compute in Ht; by apply list_elem_of_singleton in Ht).
    vm_compute. reflexivity.
Defined.

Lemma search_keeps_best_witness :
  exists top,
    ranking (vector_store example_service) (_tokenize "cat") 1 = Ok top
    /\ NoDup (top.*2).
Proof.
  destruct (search_keeps_best plain_digest example_service "cat" 1
              example_reachable) as (top & Hrank & Hdup & _).
  - vm_compute. discriminate.
  - by exists top.
Defined.

Lemma context_for_top_k_zero_witness :
  exists full,
    get_full_context example_service = Ok full
    /\ get_relevant_context example_service "cat" 0 = Ok (Str.prefix 3000 full).
Proof.
  destruct (context_for_top_k_zero plain_digest example_service "cat"
              example_reachable) as (full & Hfull & Hcontext & _).
  by exists full.
Defined.

Lemma context_joins_results_witness :
  exists texts,
    get_relevant_context example_service "is it" 1
    = Ok (Str.join context_separator texts).
Proof.
  assert (exists r, search (vector_store example_service) "is it" 1 = Ok [r])
    as [r Hr] by (eexists; vm_compute; reflexivity).
  destruct (context_joins_results plain_digest example_service "is it" 1 r []
              example_reachable Hr) as (texts & _ & Hcontext & _).
  by exists texts.
Defined.

Lemma add_document_appends_witness :
  exists self',
    add_document plain_digest fresh_service example_text (Some "a.txt")
    = Ok (Z.of_nat (length (chunk_text (chunker fresh_service) example_text)),
          self').
Proof.
  destruct (add_document_appends plain_digest fresh_service example_text
              (Some "a.txt")) as (self' & Hadd & _).
  - apply not_elem_of_empty.
  - by exists self'.
Defined.

Lemma qcm_question_normalised_witness :
  exists p letter,
    _process_question Empty_set (fun _ => true) (fun _ => "")
      (JObj _ example_question) 1 "moyen" ["qcm"] = Ok (Some p)
    /\ p !! "correct_answer" = Some (JStr _ letter)
    /\ letter ∈ option_letters.
Proof.
  destruct (qcm_question_normalised Empty_set (fun _ => true) (fun _ => "")
              example_question 1 "moyen" ["qcm"] "QCM")
    as (p & letter & Hp & Hanswer & Hletter & _).
  - reflexivity.
  - reflexivity.
  - reflexivity.
  - by exists p, letter.
Defined.

Example process_question_example :
  match _process_question Empty_set (fun _ => true) (fun _ => "")
          (JObj _ example_question) 1 "moyen" ["qcm"] with
  | Ok (Some p) =>
      p !! "correct_answer" = Some (JStr _ "B")
      /\ p !! "options"
         = Some (JList _ [JStr _ "A) one"; JStr _ "B) two"; JStr _ "C) three";
                          JStr _ "D) four"])
  | _ => False
  end.
Proof. vm_compute. by split. Qed.

(** A space on each side of a removed character stays: the result can
    hold two spaces in a row. *)
Example clean_text_example :
  _clean_text (code_points (String "009" "  Page" ++ String "010" (String "010" "one ")
                            ++ String "000" " end  "))
  = code_points "Page one  end"
  /\ _clean_text ([97; 32; zero_width_space; 32; 98; byte_order_mark; 99; 8195; 8195; 100]%N)
     = [97; 32; 32; 98; 99; 32; 100]%N.
Proof. split; vm_compute; reflexivity. Qed.

Example allowed_file_example :
  allowed_file "notes.final.PDF" = Ok true
  /\ allowed_file "notes" = Ok false
  /\ allowed_file "notes." = Ok false
  /\ allowed_file "archive.tar.gz" = Ok false.
Proof. by repeat split. Qed.
